(** * Tricksy Battle: a shallow embedding of [tricksy_battle.py]

    The two-player trick-taking game of [src/tricksy_battle.py], with its
    Python data as Rocq data:
    - a Python [int] is a [Z]; [len] and [range] counts are [nat];
    - a Python [str] is a [string] of bytes.  [isdigit], [int] and [strip]
      are modelled on ASCII text, where they do what Python does; what
      they do to a line with other characters is not modelled, and the
      properties that say how a typed line is read (as a name, as a choice
      that is taken or refused, as the cause of an exception) are stated
      for ASCII input: [ascii_input], or [all_ascii] for one line;
    - the [score] dict keyed by player name is a [gmap string Z];
    - a Python list is a [list], in the same order: [pop()] takes the LAST
      element;
    - [random.shuffle] and [random.choice] are inputs of [main]: the deck as
      it is after the shuffle, and the coin that picks the first leader;
    - the terminal is a record [io] of the lines still to be read and the
      texts printed so far; a raised exception is a value of [exn]. *)

From stdpp Require Import base option list gmap strings pretty fin_maps.
From Stdlib Require Import ZArith Lia Ascii.

Open Scope string_scope.
Open Scope Z_scope.
Open Scope list_scope.

(** Python's [enumerate(l, start)]. *)
Fixpoint enumerate {A} (start : Z) (l : list A) : list (Z * A) :=
  match l with
  | [] => []
  | x :: l' => (start, x) :: enumerate (start + 1) l'
  end.

(** ** Card *)

Module Card.

Definition SUITS : list string := ["Hearts"; "Diamonds"; "Clubs"; "Spades"].

Definition RANKS : list string :=
  ["2"; "3"; "4"; "5"; "6"; "7"; "8"; "9"; "10"; "Jack"; "Queen"; "Ace"].

(** [{rank: i+2 for i, rank in enumerate(RANKS)}]: the comprehension
    stores the pairs from left to right, a later one replacing an earlier
    one with the same key. *)
Definition VALUE_MAP : gmap string Z :=
  foldl (fun m '(i, rank) => <[rank := i + 2]> m) ∅ (enumerate 0 RANKS).

Record t := mk { suit : string; rank : string; value : Z }.

(** [Card.__init__]: [VALUE_MAP[rank]] raises KeyError ([None]) for a
    rank that is no key of the map. *)
Definition init (suit rank : string) : option t :=
  v ← VALUE_MAP !! rank;
  Some {| suit := suit; rank := rank; value := v |}.

(** [Card.__str__]. *)
Definition str (c : t) : string := rank c +:+ " of " +:+ suit c.

#[global] Instance eq_dec : EqDecision t.
Proof. solve_decision. Defined.

End Card.

Abbreviation Card := Card.t.

(** ** Exceptions and Python list operations *)

Inductive exn := EOFError | IndexError | ValueError | KeyError.

#[global] Instance exn_eq_dec : EqDecision exn.
Proof. solve_decision. Defined.

(** [l.pop()]: removes and returns the last element; [None] stands for the
    IndexError on an empty list. *)
Definition pop {A} (l : list A) : option (A * list A) :=
  match last l with
  | Some x => Some (x, removelast l)
  | None => None
  end.

(** [l.remove(x)]: removes the first element equal to [x]; [None] stands for
    the ValueError when there is none ([int] is the other source of a
    ValueError).  The cards of a deck are pairwise
    distinct objects with distinct (suit, rank), so that comparing cards by
    their fields agrees with Python's comparison by identity. *)
Fixpoint list_remove `{EqDecision A} (x : A) (l : list A) : option (list A) :=
  match l with
  | [] => None
  | y :: l' => if decide (y = x) then Some l' else cons y <$> list_remove x l'
  end.

(** ** Deck *)

Module Deck.

(** [[Card(s, r) for s in Card.SUITS for r in Card.RANKS]], before the
    shuffle. *)
Definition fresh : option (list Card) :=
  mapM (fun '(s, r) => Card.init s r)
       (s ← Card.SUITS; r ← Card.RANKS; [(s, r)]).

Definition unshuffled : list Card := default [] fresh.

(** What [Deck.__init__] can leave in [self.cards]: [random.shuffle]
    permutes the fresh list in place. *)
Definition shuffled (cards : list Card) : Prop := cards ≡ₚ unshuffled.

(** [deal(n)]: [[self.cards.pop() for _ in range(n)]]; returns the cards
    dealt and the remaining deck. *)
Fixpoint deal (n : nat) (cards : list Card) : option (list Card * list Card) :=
  match n with
  | O => Some ([], cards)
  | S n' =>
      '(c, cards1) ← pop cards;
      '(cs, cards2) ← deal n' cards1;
      Some (c :: cs, cards2)
  end.

(** [draw()]: [self.cards.pop() if self.cards else None]; returns the
    result and the remaining deck. *)
Definition draw (cards : list Card) : option Card * list Card :=
  match cards with
  | [] => (None, cards)
  | _ :: _ =>
      match pop cards with
      | Some (c, cards') => (Some c, cards')
      | None => (None, cards)
      end
  end.

End Deck.

(** ** Player *)

Record Player := mkPlayer { name : string; hand : list Card }.

(** [Player.__init__]: the hand starts empty. *)
Definition Player_init (name : string) : Player :=
  {| name := name; hand := [] |}.

(** ** The terminal *)

(** One text written to the terminal: each [print] of the program, and the
    prompt of each [input].  [render] gives the text handed to [print] or
    [input]. *)
Inductive Output :=
| OutWelcome
| OutAskName (k : Z)
| OutFirstLeader (leader : string)
| OutRound (round_num : Z)
| OutHand (player : string) (hand : list Card)
| OutChoice (idx : Z) (card : Card)
| OutAskCard (player : string) (n : nat)
| OutInvalid
| OutMustFollow (player : string) (lead_suit : string)
| OutNoSuit (player : string) (lead_suit : string)
| OutLeads (player : string) (card : Card)
| OutPlays (player : string) (card : Card)
| OutWinsTrick (player : string)
| OutRevealed (card : Card)
| OutDealing
| OutScore (n1 : string) (s1 : Z) (n2 : string) (s2 : Z)
| OutGameOver
| OutFinalScore (n1 : string) (s1 : Z) (n2 : string) (s2 : Z)
| OutShotMoon (player : string) (other_score : Z)
| OutWins (player : string)
| OutTie.

#[global] Instance Output_eq_dec : EqDecision Output.
Proof. solve_decision. Defined.

(** The line feed character. *)
Definition nl : string := String (Ascii.ascii_of_nat 10) "".

(** [", ".join(l)]. *)
Fixpoint join (sep : string) (l : list string) : string :=
  match l with
  | [] => ""
  | [x] => x
  | x :: l' => x +:+ sep +:+ join sep l'
  end.

Definition render (o : Output) : string :=
  match o with
  | OutWelcome => "Welcome to Tricksy Battle!" +:+ nl
  | OutAskName k => "Enter name for Player " +:+ pretty k +:+ ": "
  | OutFirstLeader l => nl +:+ l +:+ " will lead the first trick." +:+ nl
  | OutRound n => "--- Round " +:+ pretty n +:+ " ---"
  | OutHand p h => nl +:+ p +:+ "'s hand: " +:+ join ", " (Card.str <$> h)
  | OutChoice idx c => "    " +:+ pretty idx +:+ ": " +:+ Card.str c
  | OutAskCard p n => p +:+ ", choose a card (1-" +:+ pretty n +:+ "): "
  | OutInvalid => "Invalid selection; try again."
  | OutMustFollow p s => p +:+ ", you must follow suit (" +:+ s +:+ "):"
  | OutNoSuit p s => p +:+ ", you have no " +:+ s +:+ ". Play any card: "
  | OutLeads p c => p +:+ " leads: " +:+ Card.str c
  | OutPlays p c => p +:+ " plays: " +:+ Card.str c
  | OutWinsTrick p => p +:+ " wins the trick!" +:+ nl
  | OutRevealed c => "Revealed from deck: " +:+ Card.str c
  | OutDealing => nl +:+ "Dealing 4 new cards to each player..." +:+ nl
  | OutScore n1 s1 n2 s2 =>
      "Score → " +:+ n1 +:+ ": " +:+ pretty s1 +:+ " | " +:+ n2 +:+ ": "
        +:+ pretty s2 +:+ nl
  | OutGameOver => "=== GAME OVER ==="
  | OutFinalScore n1 s1 n2 s2 =>
      "Final Score → " +:+ n1 +:+ ": " +:+ pretty s1 +:+ " | " +:+ n2 +:+ ": "
        +:+ pretty s2
  | OutShotMoon p s => p +:+ " shot the moon and wins 17-" +:+ pretty s +:+ "!"
  | OutWins p => p +:+ " wins!"
  | OutTie => "It's a tie!"
  end.

Record io := mkIO { stdin : list string; stdout : list Output }.

(** The result of a command: a value and the terminal after it, or the
    exception that ended the program. *)
Inductive res (A : Type) :=
| Ok (a : A) (w : io)
| Raise (e : exn).
Arguments Ok {A} a w.
Arguments Raise {A} e.

Definition IO (A : Type) : Type := io -> res A.

Definition ret {A} (a : A) : IO A := fun w => Ok a w.

Definition bind {A B} (c : IO A) (k : A -> IO B) : IO B :=
  fun w => match c w with
           | Ok a w' => k a w'
           | Raise e => Raise e
           end.

Definition raise {A} (e : exn) : IO A := fun _ => Raise e.

(** An [option] whose [None] is the exception [e]. *)
Definition orRaise {A} (e : exn) (o : option A) : IO A :=
  match o with
  | Some a => ret a
  | None => raise e
  end.

Notation "'let!' x := c 'in' k" := (bind c (fun x => k))
  (at level 10, x pattern, c at level 100, k at level 200, only parsing).

Definition print (o : Output) : IO unit :=
  fun w => Ok tt {| stdin := stdin w; stdout := stdout w ++ [o] |}.

(** [input(prompt)]: writes the prompt, reads one line; EOFError when no
    line is left. *)
Definition input (prompt : Output) : IO string :=
  fun w => match stdin w with
           | [] => Raise EOFError
           | line :: rest =>
               Ok line {| stdin := rest; stdout := stdout w ++ [prompt] |}
           end.

(** ** Strings: [isdigit], [int], [strip] on ASCII text *)

(** An ASCII character: a byte below 128. *)
Definition is_ascii (c : ascii) : bool :=
  bool_decide (nat_of_ascii c < 128)%nat.

(** A text of ASCII characters. *)
Fixpoint all_ascii (s : string) : bool :=
  match s with
  | "" => true
  | String c s' => is_ascii c && all_ascii s'
  end.

(** The lines still to be read are ASCII text. *)
Definition ascii_input (w : io) : Prop :=
  Forall (fun line => all_ascii line = true) (stdin w).

(** A text of more than [int_max_str_digits] digits is refused by [int]
    with a ValueError: 4300 is the value of [sys.int_max_str_digits] when
    nothing else is configured. *)
Definition int_max_str_digits : nat := 4300.

Definition ascii_isdigit (c : ascii) : bool :=
  bool_decide (is_Some (Ascii.is_nat c)).

Fixpoint all_digits (s : string) : bool :=
  match s with
  | "" => true
  | String c s' => ascii_isdigit c && all_digits s'
  end.

(** [s.isdigit()] for ASCII text: at least one character, all of them among
    0..9.  (Python also takes digits outside ASCII for digits.) *)
Definition isdigit (s : string) : bool :=
  match s with
  | "" => false
  | _ => all_digits s
  end.

Fixpoint int_from (acc : Z) (s : string) : Z :=
  match s with
  | "" => acc
  | String c s' => int_from (10 * acc + Z.of_nat (default 0%nat (Ascii.is_nat c))) s'
  end.

(** [int(s)] for a text of ASCII digits: its decimal value, leading zeros
    allowed; [None] stands for the ValueError for more than
    [int_max_str_digits] digits, leading zeros counted. *)
Definition int (s : string) : option Z :=
  if decide (String.length s <= int_max_str_digits)%nat
  then Some (int_from 0 s)
  else None.

(** The ASCII characters [str.strip()] removes: tab, line feed, vertical tab,
    form feed, carriage return, the four separators 28..31 and space.
    (Python also removes whitespace outside ASCII, such as the no-break
    space; [lstrip], [rstrip] and [strip] below are Python's on ASCII
    text.) *)
Definition isspace (c : ascii) : bool :=
  let n := nat_of_ascii c in
  bool_decide ((9 <= n <= 13)%nat \/ (28 <= n <= 32)%nat).

Fixpoint lstrip (s : string) : string :=
  match s with
  | "" => ""
  | String c s' => if isspace c then lstrip s' else s
  end.

Definition rstrip (s : string) : string := String.rev (lstrip (String.rev s)).

Definition strip (s : string) : string := rstrip (lstrip s).

(** [s or d]: the empty string is false. *)
Definition str_or (s d : string) : string :=
  match s with
  | "" => d
  | _ => s
  end.

(** ** Choosing a card *)

(** The [while True] loop of [prompt_card_choice]: every turn of the loop
    reads one line, so the loop is a recursion on the lines left to read.
    When they run out, [input] raises EOFError; [int] raises ValueError on
    a line of too many digits. *)
Fixpoint prompt_loop (player : Player) (valid_choices : list Card)
    (lines : list string) (out : list Output) : res Card :=
  let shown :=
    out ++ ((fun '(idx, card) => OutChoice idx card) <$> enumerate 1 valid_choices) in
  match lines with
  | [] => Raise EOFError
  | choice :: rest =>
      let asked := shown ++ [OutAskCard (name player) (length valid_choices)] in
      let again := prompt_loop player valid_choices rest (asked ++ [OutInvalid]) in
      if isdigit choice then
        match int choice with
        | None => Raise ValueError
        | Some v =>
            let i := v - 1 in
            if bool_decide (0 <= i < Z.of_nat (length valid_choices)) then
              match valid_choices !! Z.to_nat i with
              | Some c => Ok c {| stdin := rest; stdout := asked |}
              | None => Raise IndexError
              end
            else again
        end
      else again
  end.

Definition prompt_card_choice (player : Player) (valid_choices : list Card) : IO Card :=
  fun w => prompt_loop player valid_choices (stdin w) (stdout w).

Definition get_lead_card (player : Player) : IO Card :=
  let! _ := print (OutHand (name player) (hand player)) in
  prompt_card_choice player (hand player).

Definition get_follow_card (player : Player) (lead_suit : string) : IO Card :=
  let same_suit := filter (fun c => Card.suit c = lead_suit) (hand player) in
  match same_suit with
  | _ :: _ =>
      let! _ := print (OutMustFollow (name player) lead_suit) in
      prompt_card_choice player same_suit
  | [] =>
      let! _ := print (OutNoSuit (name player) lead_suit) in
      prompt_card_choice player (hand player)
  end.

(** ** Trick resolution and early end *)

Definition determine_winner {P} (lead_player : P) (lead_card : Card)
    (follow_player : P) (follow_card : Card) : P :=
  if decide (Card.suit follow_card = Card.suit lead_card) then
    if decide (Card.value follow_card > Card.value lead_card)
    then follow_player else lead_player
  else lead_player.

Definition early_termination (score1 score2 : Z) : bool :=
  (bool_decide (score1 >= 9) && bool_decide (score2 >= 1))
  || (bool_decide (score2 >= 9) && bool_decide (score1 >= 1)).

(** ** The state of [main] *)

(** The two [Player] objects; [leader], [follower] and [winner] are
    references to one of them. *)
Inductive pid := P1 | P2.

#[global] Instance pid_eq_dec : EqDecision pid.
Proof. solve_decision. Defined.

Record Game := mkGame {
  p1 : Player;
  p2 : Player;
  deck : list Card;
  score : gmap string Z;
  leader : pid;
  follower : pid;
  deals_done : Z;
  round_num : Z
}.

Definition player (g : Game) (i : pid) : Player :=
  match i with P1 => p1 g | P2 => p2 g end.

Definition set_hand (i : pid) (h : list Card) (g : Game) : Game :=
  match i with
  | P1 => mkGame (mkPlayer (name (p1 g)) h) (p2 g) (deck g) (score g)
                 (leader g) (follower g) (deals_done g) (round_num g)
  | P2 => mkGame (p1 g) (mkPlayer (name (p2 g)) h) (deck g) (score g)
                 (leader g) (follower g) (deals_done g) (round_num g)
  end.

Definition set_deck (d : list Card) (g : Game) : Game :=
  mkGame (p1 g) (p2 g) d (score g) (leader g) (follower g) (deals_done g) (round_num g).

Definition set_score (s : gmap string Z) (g : Game) : Game :=
  mkGame (p1 g) (p2 g) (deck g) s (leader g) (follower g) (deals_done g) (round_num g).

Definition set_roles (l f : pid) (g : Game) : Game :=
  mkGame (p1 g) (p2 g) (deck g) (score g) l f (deals_done g) (round_num g).

Definition set_deals_done (n : Z) (g : Game) : Game :=
  mkGame (p1 g) (p2 g) (deck g) (score g) (leader g) (follower g) n (round_num g).

Definition set_round_num (n : Z) (g : Game) : Game :=
  mkGame (p1 g) (p2 g) (deck g) (score g) (leader g) (follower g) (deals_done g) n.

(** [score[p.name]]: KeyError when the name is no key. *)
Definition score_of (g : Game) (i : pid) : option Z :=
  score g !! name (player g i).

(** ** One round of the game loop *)

(** The other player: [p1 if winner is p2 else p2]. *)
Definition other (winner : pid) : pid :=
  match winner with P2 => P1 | P1 => P2 end.

(** The trick: the round counter, the two plays, the winner, the score and
    the roles of the next round. *)
Definition play_trick (g : Game) : IO Game :=
  let g := set_round_num (round_num g + 1) g in
  let! _ := print (OutRound (round_num g)) in
  let! lead_card := get_lead_card (player g (leader g)) in
  let! h := orRaise ValueError (list_remove lead_card (hand (player g (leader g)))) in
  let g := set_hand (leader g) h g in
  let! _ := print (OutLeads (name (player g (leader g))) lead_card) in
  let! follow_card := get_follow_card (player g (follower g)) (Card.suit lead_card) in
  let! h := orRaise ValueError (list_remove follow_card (hand (player g (follower g)))) in
  let g := set_hand (follower g) h g in
  let! _ := print (OutPlays (name (player g (follower g))) follow_card) in
  let winner := determine_winner (leader g) lead_card (follower g) follow_card in
  let! _ := print (OutWinsTrick (name (player g winner))) in
  let! s := orRaise KeyError (score_of g winner) in
  let g := set_score (<[name (player g winner) := s + 1]> (score g)) g in
  ret (set_roles winner (other winner) g).

(** The card revealed from the deck after the trick. *)
Definition reveal (g : Game) : IO Game :=
  let '(rev, cards) := Deck.draw (deck g) in
  let g := set_deck cards g in
  match rev with
  | Some c => let! _ := print (OutRevealed c) in ret g
  | None => ret g
  end.

(** The guard of the additional deal. *)
Definition deal_due (g : Game) : bool :=
  bool_decide (length (hand (p1 g)) = 4%nat)
  && bool_decide (length (hand (p2 g)) = 4%nat)
  && bool_decide (deals_done g < 2).

(** The additional deal of 4 cards to each player. *)
Definition deal_additional (g : Game) : IO Game :=
  if deal_due g then
    let! _ := print OutDealing in
    let! (cs, d) := orRaise IndexError (Deck.deal 4 (deck g)) in
    let g := set_hand P1 (hand (p1 g) ++ cs) (set_deck d g) in
    let! (cs, d) := orRaise IndexError (Deck.deal 4 (deck g)) in
    let g := set_hand P2 (hand (p2 g) ++ cs) (set_deck d g) in
    ret (set_deals_done (deals_done g + 1) g)
  else ret g.

Definition show_score (g : Game) : IO unit :=
  let! s1 := orRaise KeyError (score_of g P1) in
  let! s2 := orRaise KeyError (score_of g P2) in
  print (OutScore (name (p1 g)) s1 (name (p2 g)) s2).

(** The body of the [while] loop. *)
Definition round_body (g : Game) : IO Game :=
  let! g := play_trick g in
  let! g := reveal g in
  let! g := deal_additional g in
  let! _ := show_score g in
  ret g.

(** ** The game loop *)

(** The test of the [while]: [and] does not evaluate its right operand, and
    so does not read the scores, when the round counter has reached 16. *)
Definition loop_test (g : Game) : IO bool :=
  if bool_decide (round_num g < 16) then
    let! s1 := orRaise KeyError (score_of g P1) in
    let! s2 := orRaise KeyError (score_of g P2) in
    ret (negb (early_termination s1 s2))
  else ret false.

(** The [while] loop, with at most [fuel] turns: [None] when the loop would
    go on after them. *)
Fixpoint game_loop (fuel : nat) (g : Game) (w : io) : option (res Game) :=
  match loop_test g w with
  | Raise e => Some (Raise e)
  | Ok false w => Some (Ok g w)
  | Ok true w =>
      match fuel with
      | O => None
      | S fuel' =>
          match round_body g w with
          | Raise e => Some (Raise e)
          | Ok g' w' => game_loop fuel' g' w'
          end
      end
  end.

(** ** [main] *)

(** Game setup, up to the loop.  [cards] is the deck after the shuffle of
    [Deck()], [coin] the result of [random.choice([True, False])]. *)
Definition setup (cards : list Card) (coin : bool) : IO Game :=
  let! _ := print OutWelcome in
  let! n1 := input (OutAskName 1) in
  let p1 := Player_init (str_or (strip n1) "Player 1") in
  let! n2 := input (OutAskName 2) in
  let p2 := Player_init (str_or (strip n2) "Player 2") in
  let! (h1, d) := orRaise IndexError (Deck.deal 8 cards) in
  let! (h2, d) := orRaise IndexError (Deck.deal 8 d) in
  let score := <[name p2 := 0]> (<[name p1 := 0]> (∅ : gmap string Z)) in
  let '(leader, follower) := if coin then (P1, P2) else (P2, P1) in
  let g := mkGame (mkPlayer (name p1) h1) (mkPlayer (name p2) h2) d score
                  leader follower 0 0 in
  let! _ := print (OutFirstLeader (name (player g leader))) in
  ret g.

(** The game end summary. *)
Definition game_end (g : Game) : IO unit :=
  let! _ := print OutGameOver in
  let! s1 := orRaise KeyError (score_of g P1) in
  let! s2 := orRaise KeyError (score_of g P2) in
  let! _ := print (OutFinalScore (name (p1 g)) s1 (name (p2 g)) s2) in
  if bool_decide (s1 = 0) && bool_decide (s2 = 16) then
    print (OutShotMoon (name (p1 g)) s2)
  else if bool_decide (s2 = 0) && bool_decide (s1 = 16) then
    print (OutShotMoon (name (p2 g)) s1)
  else if bool_decide (s1 > s2) then
    print (OutWins (name (p1 g)))
  else if bool_decide (s2 > s1) then
    print (OutWins (name (p2 g)))
  else
    print OutTie.

Definition main (fuel : nat) (cards : list Card) (coin : bool) (w : io)
    : option (res unit) :=
  match setup cards coin w with
  | Raise e => Some (Raise e)
  | Ok g w =>
      match game_loop fuel g w with
      | None => None
      | Some (Raise e) => Some (Raise e)
      | Some (Ok g w) => Some (game_end g w)
      end
  end.


(** ** Notions used by the properties *)

(** The number of additional deals announced on the terminal. *)
Definition dealings (out : list Output) : nat :=
  length (filter (fun o => o = OutDealing) out).

(** The states at the round boundaries of the loop started in [(g0, w0)]:
    the start, and the state after each round entered with a true loop
    test; [n] counts the rounds played. *)
Inductive boundary (g0 : Game) (w0 : io) : nat -> Game -> io -> Prop :=
| boundary_start : boundary g0 w0 0 g0 w0
| boundary_round n g w g' w' :
    boundary g0 w0 n g w ->
    loop_test g w = Ok true w ->
    round_body g w = Ok g' w' ->
    boundary g0 w0 (S n) g' w'.

(** The early-termination predicate on the scores of a state. *)
Definition early_end (g : Game) : Prop :=
  exists s1 s2, score_of g P1 = Some s1 /\ score_of g P2 = Some s2 /\
                early_termination s1 s2 = true.

(** The candidate set of the follow selection, in the words of the
    specification: the cards of the hand matching the lead suit if any such
    card exists, otherwise the entire hand. *)
Definition followSelection_candidates (hand : list Card) (leadSuit : string)
    : list Card :=
  if decide (Exists (fun c => Card.suit c = leadSuit) hand)
  then filter (fun c => Card.suit c = leadSuit) hand
  else hand.

(** ** Three games on the unshuffled deck

    [random.shuffle] may leave the deck as it was built.  The lines are what
    the two players type: their names, then for every round the choice of
    the leader and the choice of the follower. *)

(** Player 1 leads first and both always pick their first card: Player 1
    takes all 16 tricks. *)
Definition moon_lines : list string := ["A"; "B"] ++ replicate 32 "1".

(** Player 2 leads first and takes the first 7 tricks, Player 1 the last 9:
    8-7 after round 15, 9-7 after round 16. *)
Definition nine_seven_lines : list string :=
  ["A"; "B"] ++ mjoin (replicate 4 ["5"; "1"]) ++ mjoin (replicate 3 ["5"; "5"])
    ++ replicate 18 "1".

(** Both players type the name A. *)
Definition same_name_lines : list string := ["A"; "A"] ++ replicate 18 "1".

(** A state late in a game: one card in each hand, the deck used up. *)
Definition last_round : Game :=
  mkGame (mkPlayer "A" [Card.mk "Hearts" "Queen" 12])
         (mkPlayer "B" [Card.mk "Hearts" "8" 8])
         [] (<["B" := 7]> (<["A" := 8]> ∅)) P1 P2 2 15.

(** ** Notions used by the further properties *)

(** The numbered list of candidates that [prompt_card_choice] prints. *)
Definition menu (valid_choices : list Card) : list Output :=
  (fun '(idx, card) => OutChoice idx card) <$> enumerate 1 valid_choices.

(** A line of ASCII text that [prompt_card_choice] does not accept when
    there are [n] candidates: not a number, or a number that [int] reads
    and that is 0 or above [n]. *)
Definition rejected (n : nat) (choice : string) : Prop :=
  all_ascii choice = true /\
  (isdigit choice = false \/
   exists v, int choice = Some v /\ (v = 0 \/ Z.of_nat n < v)).

(** A line on which [int] raises ValueError when [prompt_card_choice]
    reads it: digits, more of them than [int_max_str_digits]. *)
Definition too_long (choice : string) : Prop :=
  isdigit choice = true /\ (int_max_str_digits < String.length choice)%nat.

(** The exceptions that come from the lines typed: EOFError when they run
    out, ValueError when one of them has too many digits for [int]. *)
Definition input_fault (lines : list string) (e : exn) : Prop :=
  e = EOFError \/ (e = ValueError /\ Exists too_long lines).

(** No line to be read has more than [int_max_str_digits] characters. *)
Definition short_input (w : io) : Prop :=
  Forall (fun line => (String.length line <= int_max_str_digits)%nat) (stdin w).

(** The cards that a text on the terminal shows as out of the game: the
    card led, the card played, the card revealed. *)
Definition gone (o : Output) : list Card :=
  match o with
  | OutLeads _ c | OutPlays _ c | OutRevealed c => [c]
  | _ => []
  end.

(** The cards led, played and revealed that the terminal shows, in the
    order of their appearance. *)
Definition discarded (out : list Output) : list Card := out ≫= gone.

(** A text made of whitespace only (the empty text included). *)
Fixpoint all_space (s : string) : bool :=
  match s with
  | "" => true
  | String c s' => isspace c && all_space s'
  end.

(** The first and the last character of a text, if any. *)
Definition first_char (s : string) : option ascii :=
  match s with
  | "" => None
  | String c _ => Some c
  end.

Definition last_char (s : string) : option ascii := first_char (String.rev s).

(** A text that neither starts nor ends with whitespace. *)
Definition trimmed (s : string) : Prop :=
  (forall c, first_char s = Some c -> isspace c = false) /\
  (forall c, last_char s = Some c -> isspace c = false).

(** The course of a game on a full deck: after [n] rounds, the number of
    additional deals made, the number of cards in each hand and the number
    of cards left in the deck. *)
Definition deals_after (n : nat) : nat := Nat.min 2 (n / 4).

Definition hand_after (n : nat) : nat := 8 + 4 * deals_after n - n.

Definition deck_after (n : nat) : nat := 32 - n - 8 * deals_after n.

(** A state that is where a game on a full deck is after [n] rounds. *)
Definition on_schedule (n : nat) (g : Game) : Prop :=
  round_num g = Z.of_nat n /\
  deals_done g = Z.of_nat (deals_after n) /\
  length (hand (p1 g)) = hand_after n /\
  length (hand (p2 g)) = hand_after n /\
  length (deck g) = deck_after n /\
  follower g = other (leader g) /\
  is_Some (score_of g P1) /\ is_Some (score_of g P2).

(** * Properties *)

(** ** Cards *)

(** The 48 cards of a deck are all built, and they are pairwise distinct. *)
Lemma fresh_Some : Deck.fresh = Some Deck.unshuffled.
Proof. vm_compute. reflexivity. Qed.

Lemma unshuffled_NoDup : NoDup Deck.unshuffled /\ length Deck.unshuffled = 48%nat.
Proof.
  split; [|vm_compute; reflexivity].
  apply (bool_decide_unpack _). vm_compute. exact I.
Qed.

Lemma shuffled_NoDup (cards : list Card) :
  Deck.shuffled cards -> NoDup cards /\ length cards = 48%nat.
Proof.
  unfold Deck.shuffled. intros H. rewrite H. exact unshuffled_NoDup.
Qed.

Lemma VALUE_MAP_lookup (r : string) (v : Z) :
  Card.VALUE_MAP !! r = Some v <->
  exists i : nat, Card.RANKS !! i = Some r /\ v = Z.of_nat i + 2.
Proof.
  split.
  - intros H.
    assert (Hl : (r, v) ∈ map_to_list Card.VALUE_MAP)
      by (apply elem_of_map_to_list; exact H).
    set (l := map_to_list Card.VALUE_MAP) in Hl. vm_compute in l. subst l.
    repeat match goal with
    | H : _ ∈ _ :: _ |- _ => apply elem_of_cons in H; destruct H as [H|H]
    | H : _ ∈ [] |- _ => apply elem_of_nil in H; destruct H
    end.
    all: match goal with
         | H : (_, _) = (_, ?n) |- _ =>
             injection H as -> ->; exists (Z.to_nat (n - 2)); split; reflexivity
         end.
  - intros (i & Hi & ->).
    do 12 (destruct i as [|i]; [injection Hi as <-; vm_compute; reflexivity|]).
    discriminate Hi.
Qed.

Lemma init_Some (s r : string) (c : Card) :
  Card.init s r = Some c <->
  Card.VALUE_MAP !! r = Some (Card.value c) /\ Card.suit c = s /\ Card.rank c = r.
Proof.
  unfold Card.init. destruct (Card.VALUE_MAP !! r) as [v|]; simpl.
  - split.
    + intros [= <-]. auto.
    + intros ([= ->] & <- & <-). destruct c; reflexivity.
  - split; [discriminate | intros (? & _); discriminate].
Qed.

Lemma init_value (i : nat) (s r : string) (c : Card) :
  Card.RANKS !! i = Some r -> Card.init s r = Some c ->
  Card.value c = Z.of_nat i + 2.
Proof.
  intros Hi Hc. apply init_Some in Hc as (Hv & _).
  assert (Hv' : Card.VALUE_MAP !! r = Some (Z.of_nat i + 2))
    by (apply VALUE_MAP_lookup; eauto).
  congruence.
Qed.

Lemma RANKS_lt (i : nat) (r : string) : Card.RANKS !! i = Some r -> (i < 12)%nat.
Proof. intros H. apply lookup_lt_Some in H. exact H. Qed.

(** C2 (amended).  The value of a card built by [Card.__init__] is a function
    of its rank alone (the entry of [VALUE_MAP] for the rank), lies between 2
    and 14, and is strictly monotonic in the position of the rank among the
    12 ranks; the Queen of Hearts beats the 8 of Hearts, with values
    12 > 8. *)
Theorem card_value_of_rank :
  (forall s r c, Card.init s r = Some c ->
     Card.rank c = r /\ Card.VALUE_MAP !! r = Some (Card.value c) /\
     2 <= Card.value c <= 14) /\
  (forall s1 s2 r c1 c2,
     Card.init s1 r = Some c1 -> Card.init s2 r = Some c2 ->
     Card.value c1 = Card.value c2) /\
  length Card.RANKS = 12%nat /\
  (forall (i j : nat) ri rj si sj ci cj,
     Card.RANKS !! i = Some ri -> Card.RANKS !! j = Some rj ->
     Card.init si ri = Some ci -> Card.init sj rj = Some cj ->
     ((i < j)%nat <-> Card.value ci < Card.value cj)) /\
  (exists q e,
     Card.init "Hearts" "Queen" = Some q /\ Card.init "Hearts" "8" = Some e /\
     Card.value q = 12 /\ Card.value e = 8 /\
     forall (P : Type) (lead_player follow_player : P),
       determine_winner lead_player q follow_player e = lead_player).
Proof.
  split; [|split; [|split; [|split]]].
  - intros s r c Hc. pose proof Hc as Hc'.
    apply init_Some in Hc as (Hv & _ & Hr).
    split; [exact Hr|]. split; [exact Hv|].
    apply VALUE_MAP_lookup in Hv as (i & Hi & ->).
    apply RANKS_lt in Hi. lia.
  - intros s1 s2 r c1 c2 H1 H2.
    apply init_Some in H1 as (H1 & _). apply init_Some in H2 as (H2 & _).
    congruence.
  - reflexivity.
  - intros i j ri rj si sj ci cj Hi Hj Hci Hcj.
    rewrite (init_value i si ri ci Hi Hci), (init_value j sj rj cj Hj Hcj). lia.
  - exists (Card.mk "Hearts" "Queen" 12), (Card.mk "Hearts" "8" 8).
    repeat split; reflexivity.
Qed.

Lemma card_value_of_rank_witness :
  Card.value (Card.mk "Spades" "Ace" 13) = Card.value (Card.mk "Hearts" "Ace" 13) /\
  (2 <= Card.value (Card.mk "Spades" "Ace" 13) <= 14) /\
  ((10 < 11)%nat <-> Card.value (Card.mk "Hearts" "Queen" 12)
                      < Card.value (Card.mk "Spades" "Ace" 13)).
Proof.
  destruct card_value_of_rank as (Hf & Hr & _ & Hm & _).
  split; [|split].
  - apply (Hr "Spades" "Hearts" "Ace"); reflexivity.
  - apply (Hf "Spades" "Ace"). reflexivity.
  - apply (Hm 10%nat 11%nat "Queen" "Ace" "Hearts" "Spades"); reflexivity.
Defined.

(** C2, as stated: the Queen of Hearts would have the value 14.  In
    [VALUE_MAP] the Queen has the value 12 (and the Ace 13). *)
Lemma queen_value_counterexample :
  Card.value <$> Card.init "Hearts" "Queen" = Some 12 /\
  Card.value <$> Card.init "Hearts" "Queen" <> Some 14 /\
  Card.value <$> Card.init "Hearts" "Ace" = Some 13.
Proof. vm_compute. repeat split; congruence. Qed.

(** ** Trick resolution *)

(** C3.  [determine_winner] is a function of the two played cards: when the
    follow card has the suit of the lead card, the card with the strictly
    greater value wins; when it has another suit, the leader wins whatever
    the values. *)
Theorem determine_winner_spec {P : Type} (lead_player follow_player : P)
    (lead_card follow_card : Card) :
  (Card.suit follow_card = Card.suit lead_card ->
   Card.value follow_card > Card.value lead_card ->
   determine_winner lead_player lead_card follow_player follow_card = follow_player) /\
  (Card.suit follow_card = Card.suit lead_card ->
   Card.value lead_card > Card.value follow_card ->
   determine_winner lead_player lead_card follow_player follow_card = lead_player) /\
  (Card.suit follow_card <> Card.suit lead_card ->
   determine_winner lead_player lead_card follow_player follow_card = lead_player).
Proof.
  unfold determine_winner. repeat split; intros.
  - rewrite decide_True by assumption. rewrite decide_True by assumption. reflexivity.
  - rewrite decide_True by assumption. rewrite decide_False by lia. reflexivity.
  - rewrite decide_False by assumption. reflexivity.
Qed.

Lemma determine_winner_spec_witness :
  determine_winner P1 (Card.mk "Hearts" "8" 8) P2 (Card.mk "Hearts" "Queen" 12) = P2 /\
  determine_winner P1 (Card.mk "Hearts" "Queen" 12) P2 (Card.mk "Hearts" "8" 8) = P1 /\
  determine_winner P1 (Card.mk "Spades" "2" 2) P2 (Card.mk "Hearts" "Ace" 13) = P1.
Proof.
  split; [|split].
  - refine (proj1 (determine_winner_spec P1 P2 _ _) _ _); [reflexivity | simpl; lia].
  - refine (proj1 (proj2 (determine_winner_spec P1 P2 _ _)) _ _);
      [reflexivity | simpl; lia].
  - refine (proj2 (proj2 (determine_winner_spec P1 P2 _ _)) _).
    simpl. discriminate.
Defined.

(** C9.  With the same suit and equal values the leader wins: the follower
    needs a strictly greater value. *)
Theorem determine_winner_tie {P : Type} (lead_player follow_player : P)
    (lead_card follow_card : Card) :
  Card.suit follow_card = Card.suit lead_card ->
  Card.value follow_card = Card.value lead_card ->
  determine_winner lead_player lead_card follow_player follow_card = lead_player.
Proof.
  intros Hs Hv. unfold determine_winner.
  rewrite decide_True by assumption. rewrite decide_False by lia. reflexivity.
Qed.

Lemma determine_winner_tie_witness :
  determine_winner P1 (Card.mk "Hearts" "Queen" 12) P2 (Card.mk "Hearts" "Queen" 12) = P1.
Proof. apply (determine_winner_tie P1 P2); reflexivity. Defined.

(** ** Commands *)

Lemma bind_Ok {A B} (c : IO A) (k : A -> IO B) (w w' : io) (b : B) :
  bind c k w = Ok b w' <-> exists a w1, c w = Ok a w1 /\ k a w1 = Ok b w'.
Proof.
  unfold bind. destruct (c w) as [a w1|e].
  - split; [eauto | intros (? & ? & [= <- <-] & H); exact H].
  - split; [discriminate | intros (? & ? & ? & _); discriminate].
Qed.

Lemma ret_Ok {A} (a b : A) (w w' : io) : ret a w = Ok b w' <-> a = b /\ w = w'.
Proof. unfold ret. split; [intros [= <- <-]; auto | intros [<- <-]; reflexivity]. Qed.

Lemma orRaise_Ok {A} (e : exn) (o : option A) (a : A) (w w' : io) :
  orRaise e o w = Ok a w' <-> o = Some a /\ w = w'.
Proof.
  destruct o as [x|]; simpl.
  - rewrite ret_Ok. split; [intros [<- <-]; auto | intros [[= <-] <-]; auto].
  - unfold raise. split; [discriminate | intros [? _]; discriminate].
Qed.

Lemma print_Ok (o : Output) (u : unit) (w w' : io) :
  print o w = Ok u w' <-> w' = mkIO (stdin w) (stdout w ++ [o]).
Proof.
  unfold print. destruct u.
  split; [intros [= <-]; reflexivity | intros ->; reflexivity].
Qed.

(** Takes a successful run of a command apart, step by step. *)
Ltac inv_io :=
  repeat match goal with
  | H : bind _ _ _ = Ok _ _ |- _ =>
      apply bind_Ok in H; destruct H as (? & ? & ? & H)
  | H : ret _ _ = Ok _ _ |- _ => apply ret_Ok in H; destruct H as [? ?]
  | H : orRaise _ _ _ = Ok _ _ |- _ => apply orRaise_Ok in H; destruct H as [? ?]
  | H : print _ _ = Ok _ _ |- _ => apply print_Ok in H
  | H : (let '(_, _) := ?p in _) _ = Ok _ _ |- _ => destruct p eqn:?
  end.

(** ** The deck *)

Lemma pop_snoc {A} (l : list A) (x : A) : pop (l ++ [x]) = Some (x, l).
Proof. unfold pop. rewrite last_snoc, removelast_last. reflexivity. Qed.

Lemma pop_nil {A} : pop (@nil A) = None.
Proof. reflexivity. Qed.

Lemma pop_Some {A} (l l' : list A) (x : A) :
  pop l = Some (x, l') <-> l = l' ++ [x].
Proof.
  split.
  - destruct l as [|y l] using rev_ind; [discriminate|].
    rewrite pop_snoc. intros [= <- <-]. reflexivity.
  - intros ->. apply pop_snoc.
Qed.

Lemma draw_nonempty (cards : list Card) :
  cards <> [] ->
  exists c rest, cards = rest ++ [c] /\ Deck.draw cards = (Some c, rest).
Proof.
  intros Hne. destruct cards as [|c0 cards] using rev_ind; [congruence|].
  exists c0, cards. split; [reflexivity|].
  unfold Deck.draw. rewrite pop_snoc. destruct (cards ++ [c0]) eqn:E; [|reflexivity].
  destruct cards; discriminate E.
Qed.

Lemma deal_Some (n : nat) (cards dealt rest : list Card) :
  Deck.deal n cards = Some (dealt, rest) <->
  cards = rest ++ reverse dealt /\ length dealt = n.
Proof.
  revert cards dealt rest. induction n as [|n IH]; intros cards dealt rest; simpl.
  - split.
    + intros [= <- <-]. rewrite app_nil_r. auto.
    + intros [-> Hl]. destruct dealt; [|discriminate].
      simpl. rewrite app_nil_r. reflexivity.
  - split.
    + destruct (pop cards) as [[c cards1]|] eqn:Hp; [|discriminate]. simpl.
      destruct (Deck.deal n cards1) as [[cs cards2]|] eqn:Hd; [|discriminate]. simpl.
      intros [= <- <-]. apply pop_Some in Hp. apply IH in Hd as [-> <-].
      subst cards. rewrite reverse_cons, app_assoc. auto.
    + intros [-> Hl]. destruct dealt as [|c cs]; [discriminate|].
      injection Hl as Hl. rewrite reverse_cons, app_assoc, pop_snoc. simpl.
      assert (Hd : Deck.deal n (rest ++ reverse cs) = Some (cs, rest))
        by (apply IH; auto).
      rewrite Hd. reflexivity.
Qed.

(** ** The terminal during a round *)

Lemma dealings_app (l1 l2 : list Output) :
  dealings (l1 ++ l2) = (dealings l1 + dealings l2)%nat.
Proof. unfold dealings. rewrite filter_app, length_app. reflexivity. Qed.

Lemma dealings_snoc (l : list Output) (o : Output) :
  o <> OutDealing -> dealings (l ++ [o]) = dealings l.
Proof.
  intros Ho. rewrite dealings_app. unfold dealings at 2. simpl.
  rewrite filter_cons_False by exact Ho. simpl. lia.
Qed.

Lemma dealings_choices (start : Z) (l : list Card) :
  dealings ((fun '(idx, card) => OutChoice idx card) <$> enumerate start l) = 0%nat.
Proof.
  revert start. induction l as [|c l IH]; intros start; [reflexivity|].
  simpl. change (?x :: ?l') with ([x] ++ l') at 1.
  rewrite dealings_app, IH. reflexivity.
Qed.

Lemma prompt_loop_Ok (p : Player) (vc : list Card) (lines : list string)
    (out : list Output) (c : Card) (w' : io) :
  prompt_loop p vc lines out = Ok c w' ->
  c ∈ vc /\ dealings (stdout w') = dealings out.
Proof.
  revert out. induction lines as [|choice rest IH]; intros out; simpl; [discriminate|].
  assert (Hagain :
    prompt_loop p vc rest
      (((out ++ ((fun '(idx, card) => OutChoice idx card) <$> enumerate 1 vc))
          ++ [OutAskCard (name p) (length vc)]) ++ [OutInvalid]) = Ok c w' ->
    c ∈ vc /\ dealings (stdout w') = dealings out).
  { intros H. apply IH in H as [Hc ->]. split; [exact Hc|].
    rewrite !dealings_snoc by discriminate.
    rewrite dealings_app, dealings_choices. lia. }
  destruct (isdigit choice); [|exact Hagain].
  destruct (int choice) as [v|]; [|discriminate].
  case_bool_decide; [|exact Hagain].
  destruct (vc !! Z.to_nat (v - 1)) as [c'|] eqn:Hl; [|discriminate].
  intros [= <- <-]. simpl. split.
  - eapply list_elem_of_lookup_2. exact Hl.
  - rewrite dealings_snoc by discriminate.
    rewrite dealings_app, dealings_choices. lia.
Qed.

Lemma prompt_card_choice_Ok (p : Player) (vc : list Card) (c : Card) (w w' : io) :
  prompt_card_choice p vc w = Ok c w' ->
  c ∈ vc /\ dealings (stdout w') = dealings (stdout w).
Proof. apply prompt_loop_Ok. Qed.

Lemma get_lead_card_Ok (p : Player) (c : Card) (w w' : io) :
  get_lead_card p w = Ok c w' ->
  c ∈ hand p /\ dealings (stdout w') = dealings (stdout w).
Proof.
  unfold get_lead_card. intros H. inv_io. subst.
  apply prompt_card_choice_Ok in H as [Hc ->]. simpl.
  split; [exact Hc|]. apply dealings_snoc. discriminate.
Qed.

(** ** Follow selection *)

Lemma filter_nil_not_Exists (P : Card -> Prop) `{forall c, Decision (P c)}
    (l : list Card) :
  filter P l = [] <-> ~ Exists P l.
Proof.
  rewrite Exists_exists. split.
  - intros Hf (c & Hc & HP).
    assert (Hin : c ∈ filter P l) by (apply list_elem_of_filter; auto).
    rewrite Hf in Hin. apply elem_of_nil in Hin. exact Hin.
  - intros Hn. destruct (filter P l) as [|c l'] eqn:E; [reflexivity|].
    exfalso. apply Hn. exists c.
    assert (Hin : c ∈ filter P l) by (rewrite E; left).
    apply list_elem_of_filter in Hin as [HP Hc]. auto.
Qed.

Lemma get_follow_card_candidates (p : Player) (lead_suit : string) :
  exists header : Output,
    header <> OutDealing /\
    get_follow_card p lead_suit =
    (let! _ := print header in
     prompt_card_choice p (followSelection_candidates (hand p) lead_suit)).
Proof.
  unfold get_follow_card, followSelection_candidates.
  destruct (filter (fun c => Card.suit c = lead_suit) (hand p)) as [|c l] eqn:E.
  - exists (OutNoSuit (name p) lead_suit). split; [discriminate|].
    apply filter_nil_not_Exists in E. rewrite decide_False by exact E. reflexivity.
  - exists (OutMustFollow (name p) lead_suit). split; [discriminate|].
    rewrite decide_True; [reflexivity|].
    destruct (decide (Exists (fun c => Card.suit c = lead_suit) (hand p))) as [Hy|Hn];
      [exact Hy|].
    apply (proj2 (filter_nil_not_Exists _ _)) in Hn. congruence.
Qed.

Lemma get_follow_card_Ok (p : Player) (lead_suit : string) (c : Card) (w w' : io) :
  get_follow_card p lead_suit w = Ok c w' ->
  c ∈ followSelection_candidates (hand p) lead_suit /\
  dealings (stdout w') = dealings (stdout w).
Proof.
  destruct (get_follow_card_candidates p lead_suit) as (header & Hh & ->).
  intros H. inv_io. subst.
  apply prompt_card_choice_Ok in H as [Hc ->]. simpl.
  split; [exact Hc|]. apply dealings_snoc. exact Hh.
Qed.

(** C4.  [get_follow_card] offers the follower the candidate set of the
    specification: the cards of the hand in the lead suit when there is one,
    the entire hand otherwise.  The card it returns is one of the
    candidates, so a follower who holds a card of the lead suit plays a card
    of the lead suit. *)
Theorem follow_selection (p : Player) (lead_suit : string) :
  (exists header : Output,
     get_follow_card p lead_suit =
     (let! _ := print header in
      prompt_card_choice p (followSelection_candidates (hand p) lead_suit))) /\
  (forall c w w',
     get_follow_card p lead_suit w = Ok c w' ->
     c ∈ followSelection_candidates (hand p) lead_suit /\
     c ∈ hand p /\
     ((exists c0, c0 ∈ hand p /\ Card.suit c0 = lead_suit) ->
      Card.suit c = lead_suit)).
Proof.
  split.
  - destruct (get_follow_card_candidates p lead_suit) as (header & _ & E). eauto.
  - intros c w w' H. apply get_follow_card_Ok in H as [Hc _].
    split; [exact Hc|]. unfold followSelection_candidates in Hc.
    destruct (decide (Exists (fun c => Card.suit c = lead_suit) (hand p))) as [Hy|Hn].
    + apply list_elem_of_filter in Hc as [Hs Hc]. auto.
    + split; [exact Hc|]. intros (c0 & Hc0 & Hs0). exfalso. apply Hn.
      apply Exists_exists. eauto.
Qed.


Lemma follow_selection_witness :
  exists c w',
    get_follow_card
      (mkPlayer "B" [Card.mk "Spades" "3" 3; Card.mk "Hearts" "8" 8;
                     Card.mk "Hearts" "Ace" 13])
      "Hearts" (mkIO ["7"; "2"] []) = Ok c w' /\
    c = Card.mk "Hearts" "Ace" 13 /\ Card.suit c = "Hearts".
Proof.
  assert (E : get_follow_card
      (mkPlayer "B" [Card.mk "Spades" "3" 3; Card.mk "Hearts" "8" 8;
                     Card.mk "Hearts" "Ace" 13])
      "Hearts" (mkIO ["7"; "2"] []) =
    Ok (Card.mk "Hearts" "Ace" 13)
       (mkIO [] [OutMustFollow "B" "Hearts";
                 OutChoice 1 (Card.mk "Hearts" "8" 8);
                 OutChoice 2 (Card.mk "Hearts" "Ace" 13);
                 OutAskCard "B" 2; OutInvalid;
                 OutChoice 1 (Card.mk "Hearts" "8" 8);
                 OutChoice 2 (Card.mk "Hearts" "Ace" 13);
                 OutAskCard "B" 2])) by (vm_compute; reflexivity).
  eexists _, _. split; [exact E|]. split; [reflexivity|].
  refine (proj2 (proj2 (proj2 (follow_selection _ "Hearts") _ _ _ E)) _).
  exists (Card.mk "Hearts" "8" 8). split; [|reflexivity].
  apply list_elem_of_In. simpl. auto.
Defined.

(** ** What one round changes *)

Lemma name_player_set_hand (i j : pid) (h : list Card) (g : Game) :
  name (player (set_hand i h g) j) = name (player g j).
Proof. destruct i, j; reflexivity. Qed.

Lemma play_trick_Ok (g g' : Game) (w w' : io) :
  play_trick g w = Ok g' w' ->
  round_num g' = round_num g + 1 /\ deals_done g' = deals_done g /\
  deck g' = deck g /\
  name (p1 g') = name (p1 g) /\ name (p2 g') = name (p2 g) /\
  dealings (stdout w') = dealings (stdout w) /\
  exists winner s,
    score_of g winner = Some s /\
    score g' = <[name (player g winner) := s + 1]> (score g).
Proof.
  unfold play_trick. intros H. inv_io. subst.
  repeat match goal with
  | H : get_lead_card _ _ = Ok _ _ |- _ => apply get_lead_card_Ok in H as [_ H]
  | H : get_follow_card _ _ _ = Ok _ _ |- _ => apply get_follow_card_Ok in H as [_ H]
  end.
  match goal with
  | H : score_of _ ?win = Some ?s |- _ => set (winner := win) in *; clearbody winner
  end.
  destruct g as [[n1 h1] [n2 h2] d sc l f dd rn].
  destruct l, f, winner; simpl in *;
    (repeat split; try reflexivity;
     [ rewrite !dealings_snoc by discriminate;
       repeat match goal with
       | H : dealings (stdout ?a) = _ |- context [dealings (stdout ?a)] =>
           rewrite H; rewrite !dealings_snoc by discriminate
       end; reflexivity
     | first [ exists P1; eexists; split; [eassumption | reflexivity]
             | exists P2; eexists; split; [eassumption | reflexivity] ] ]).
Qed.

Lemma reveal_Ok (g g' : Game) (w w' : io) :
  reveal g w = Ok g' w' ->
  g' = set_deck (snd (Deck.draw (deck g))) g /\
  dealings (stdout w') = dealings (stdout w).
Proof.
  unfold reveal. destruct (Deck.draw (deck g)) as [[c|] cards]; simpl; intros H.
  - inv_io. subst. simpl. split; [reflexivity|]. apply dealings_snoc. discriminate.
  - inv_io. subst. auto.
Qed.

Lemma deal_due_true (g : Game) :
  deal_due g = true <->
  length (hand (p1 g)) = 4%nat /\ length (hand (p2 g)) = 4%nat /\ deals_done g < 2.
Proof.
  unfold deal_due. rewrite !andb_true_iff, !bool_decide_eq_true. tauto.
Qed.

Lemma deal_additional_Ok (g g' : Game) (w w' : io) :
  deal_additional g w = Ok g' w' ->
  (deal_due g = true /\
   (exists cs1 cs2 d1,
      Deck.deal 4 (deck g) = Some (cs1, d1) /\
      Deck.deal 4 d1 = Some (cs2, deck g') /\
      hand (p1 g') = hand (p1 g) ++ cs1 /\ hand (p2 g') = hand (p2 g) ++ cs2) /\
   deals_done g' = deals_done g + 1 /\
   dealings (stdout w') = S (dealings (stdout w)) /\
   round_num g' = round_num g /\ score g' = score g /\
   name (p1 g') = name (p1 g) /\ name (p2 g') = name (p2 g))
  \/ (deal_due g = false /\ g' = g /\ w' = w).
Proof.
  unfold deal_additional. destruct (deal_due g) eqn:Hdue; intros H.
  - left. split; [reflexivity|]. inv_io.
    repeat match goal with
    | H : (let '(_, _) := ?p in _) _ = Ok _ _ |- _ => destruct p
    end.
    inv_io. subst. simpl in *. split.
    + eexists _, _, _. repeat split; eassumption || reflexivity.
    + repeat split; try reflexivity.
      rewrite dealings_app. unfold dealings at 2. simpl. lia.
  - right. inv_io. subst. auto.
Qed.

Lemma show_score_Ok (g : Game) (u : unit) (w w' : io) :
  show_score g w = Ok u w' ->
  dealings (stdout w') = dealings (stdout w).
Proof.
  unfold show_score. intros H. inv_io. subst. simpl.
  apply dealings_snoc. discriminate.
Qed.

(** The state at the check point of the additional deal: after the trick
    and the reveal. *)
Lemma round_body_Ok (g g' : Game) (w w' : io) :
  round_body g w = Ok g' w' ->
  exists gc wc w3 u,
    (let! g := play_trick g in reveal g) w = Ok gc wc /\
    deal_additional gc wc = Ok g' w3 /\
    show_score g' w3 = Ok u w'.
Proof.
  unfold round_body. intros H. inv_io. subst.
  eexists _, _, _, _. split; [|split; eassumption].
  apply bind_Ok. eauto.
Qed.

Lemma round_body_frame (g g' : Game) (w w' : io) :
  round_body g w = Ok g' w' ->
  round_num g' = round_num g + 1 /\
  name (p1 g') = name (p1 g) /\ name (p2 g') = name (p2 g) /\
  (exists winner s,
     score_of g winner = Some s /\
     score g' = <[name (player g winner) := s + 1]> (score g)) /\
  ((deals_done g' = deals_done g /\ dealings (stdout w') = dealings (stdout w)) \/
   (deals_done g < 2 /\ deals_done g' = deals_done g + 1 /\
    dealings (stdout w') = S (dealings (stdout w)))).
Proof.
  intros H. apply round_body_Ok in H as (gc & wc & w3 & u & Hpre & Hdeal & Hshow).
  inv_io.
  match goal with H : play_trick _ _ = _ |- _ =>
    apply play_trick_Ok in H as (Hr & Hdd & Hdk & Hn1 & Hn2 & Hd1 & Hsc) end.
  apply reveal_Ok in Hpre as [-> Hd2].
  apply show_score_Ok in Hshow.
  apply deal_additional_Ok in Hdeal
    as [(Hdue & _ & Hdd' & Hd3 & Hr' & Hs' & Hn1' & Hn2')|(Hdue & -> & ->)].
  - apply deal_due_true in Hdue as (_ & _ & Hlt). simpl in *.
    rewrite Hr', Hn1', Hn2', Hs'.
    repeat split; try assumption.
    right. split; [lia|]. split; [lia|]. congruence.
  - simpl. repeat split; try assumption.
    left. split; [assumption|]. congruence.
Qed.

(** ** Setup *)

#[local] Arguments Deck.deal : simpl never.

Lemma setup_Ok (cards : list Card) (coin : bool) (w0 w1 : io) (g0 : Game) :
  setup cards coin w0 = Ok g0 w1 ->
  exists n1 n2 rest,
    stdin w0 = n1 :: n2 :: rest /\
    name (p1 g0) = str_or (strip n1) "Player 1" /\
    name (p2 g0) = str_or (strip n2) "Player 2" /\
    score g0 = <[name (p2 g0) := 0]> (<[name (p1 g0) := 0]> ∅) /\
    leader g0 = (if coin then P1 else P2) /\
    follower g0 = other (leader g0) /\
    deals_done g0 = 0 /\ round_num g0 = 0 /\
    (exists d, Deck.deal 8 cards = Some (hand (p1 g0), d) /\
               Deck.deal 8 d = Some (hand (p2 g0), deck g0)) /\
    dealings (stdout w1) = dealings (stdout w0).
Proof.
  unfold setup. intros H. inv_io.
  repeat match goal with
  | H : (let '(_, _) := ?p in _) _ = Ok _ _ |- _ => destruct p
  end.
  inv_io.
  repeat match goal with
  | H : input _ _ = Ok _ _ |- _ =>
      unfold input in H;
      match type of H with
      | match stdin ?w with _ => _ end = _ =>
          destruct (stdin w) as [|? ?] eqn:?; [discriminate H|];
          injection H as ? ?
      end
  end.
  subst. simpl in *. subst.
  destruct coin;
    match goal with H : (_, _) = (_, _) |- _ => injection H as <- <- end;
    (eexists _, _, _; split; [eassumption|];
     repeat split; try reflexivity;
     [ eexists; split; eassumption
     | rewrite !dealings_snoc by discriminate; reflexivity ]).
Qed.

(** ** The loop test *)

Lemma early_termination_true (s1 s2 : Z) :
  early_termination s1 s2 = true <-> (s1 >= 9 /\ s2 >= 1) \/ (s2 >= 9 /\ s1 >= 1).
Proof.
  unfold early_termination.
  rewrite orb_true_iff, !andb_true_iff, !bool_decide_eq_true. tauto.
Qed.

Lemma loop_test_Ok (g : Game) (w w' : io) (b : bool) :
  loop_test g w = Ok b w' ->
  w' = w /\
  (b = true <->
   round_num g < 16 /\
   exists s1 s2, score_of g P1 = Some s1 /\ score_of g P2 = Some s2 /\
                 early_termination s1 s2 = false).
Proof.
  unfold loop_test. case_bool_decide as Hr; intros H.
  - inv_io. subst. split; [reflexivity|]. split.
    + intros Hb. split; [exact Hr|]. eexists _, _. repeat split; try eassumption.
      apply negb_true_iff. exact Hb.
    + intros (_ & s1 & s2 & Hs1 & Hs2 & He).
      apply negb_true_iff. congruence.
  - inv_io. subst. split; [reflexivity|]. split; [discriminate|].
    intros (? & _). lia.
Qed.

Lemma loop_test_false (g : Game) (w : io) :
  is_Some (score_of g P1) -> is_Some (score_of g P2) ->
  (loop_test g w = Ok false w <-> round_num g >= 16 \/ early_end g).
Proof.
  intros [s1 H1] [s2 H2]. unfold loop_test, early_end.
  rewrite H1, H2. simpl. unfold bind, ret. case_bool_decide as Hr.
  - destruct (early_termination s1 s2) eqn:He; simpl.
    + split; [|reflexivity]. intros _. right. eauto.
    + split; [discriminate|]. intros [Hge|(s1' & s2' & ? & ? & He')]; [lia|].
      congruence.
  - split; [|reflexivity]. intros _. left. lia.
Qed.

Lemma loop_test_true (g : Game) (w : io) :
  loop_test g w = Ok true w ->
  round_num g < 16 /\ ~ early_end g.
Proof.
  intros H. apply loop_test_Ok in H as [_ H].
  destruct H as [H _]. destruct (H eq_refl) as (Hr & s1 & s2 & H1 & H2 & He).
  split; [exact Hr|]. intros (s1' & s2' & H1' & H2' & He'). congruence.
Qed.

(** ** Round boundaries *)

Lemma boundary_front (g g1 g' : Game) (w w1 w' : io) (n : nat) :
  loop_test g w = Ok true w -> round_body g w = Ok g1 w1 ->
  boundary g1 w1 n g' w' -> boundary g w (S n) g' w'.
Proof.
  intros Ht Hb H. induction H as [|n g2 w2 g3 w3 _ IH Ht2 Hb2].
  - eapply boundary_round; [apply boundary_start | exact Ht | exact Hb].
  - eapply boundary_round; [exact IH | exact Ht2 | exact Hb2].
Qed.

Lemma boundary_uncons (g g' : Game) (w w' : io) (n : nat) :
  boundary g w (S n) g' w' ->
  exists g1 w1,
    loop_test g w = Ok true w /\ round_body g w = Ok g1 w1 /\
    boundary g1 w1 n g' w'.
Proof.
  revert g' w'. induction n as [|n IH]; intros g' w' H;
    inversion H as [|n' g2 w2 g3 w3 Hprev Ht Hb]; subst.
  - inversion Hprev; subst. exists g', w'. repeat split; auto. apply boundary_start.
  - apply IH in Hprev as (g1 & w1 & Ht1 & Hb1 & Hrest).
    exists g1, w1. repeat split; auto.
    eapply boundary_round; eassumption.
Qed.

Lemma boundary_det (g0 g g' : Game) (w0 w w' : io) (n : nat) :
  boundary g0 w0 n g w -> boundary g0 w0 n g' w' -> g = g' /\ w = w'.
Proof.
  intros H. revert g' w'. induction H as [|n g1 w1 g2 w2 _ IH Ht Hb]; intros g' w' H'.
  - inversion H'; subst. auto.
  - inversion H' as [|n' g3 w3 g4 w4 Hprev Ht' Hb']; subst.
    apply IH in Hprev as [<- <-]. rewrite Hb in Hb'. injection Hb' as <- <-. auto.
Qed.

Lemma boundary_earlier (g0 g : Game) (w0 w : io) (n m : nat) :
  boundary g0 w0 n g w -> (m < n)%nat ->
  exists g' w', boundary g0 w0 m g' w' /\ loop_test g' w' = Ok true w'.
Proof.
  intros H. induction H as [|n g1 w1 g2 w2 Hprev IH Ht Hb]; intros Hm; [lia|].
  destruct (decide (m = n)) as [->|Hne].
  - exists g1, w1. auto.
  - apply IH. lia.
Qed.

Lemma insert_is_Some_present (m : gmap string Z) (k k' : string) (v v' : Z) :
  m !! k = Some v ->
  (is_Some (<[k := v']> m !! k') <-> is_Some (m !! k')).
Proof.
  intros Hk. rewrite lookup_insert_is_Some. split.
  - intros [<-|[_ H]]; [eauto | exact H].
  - intros H. destruct (decide (k = k')); auto.
Qed.

Lemma boundary_inv (g0 g : Game) (w0 w : io) (n : nat) :
  boundary g0 w0 n g w ->
  round_num g = round_num g0 + Z.of_nat n /\
  name (p1 g) = name (p1 g0) /\ name (p2 g) = name (p2 g0) /\
  (forall k, is_Some (score g !! k) <-> is_Some (score g0 !! k)) /\
  deals_done g0 <= deals_done g /\
  (deals_done g0 <= 2 -> deals_done g <= 2) /\
  Z.of_nat (dealings (stdout w)) =
    Z.of_nat (dealings (stdout w0)) + (deals_done g - deals_done g0).
Proof.
  induction 1 as [|n g1 w1 g2 w2 _ IH Ht Hb].
  - repeat split; auto; lia.
  - destruct IH as (Hr & Hn1 & Hn2 & Hk & Hd0 & Hd2 & Hdl).
    apply round_body_frame in Hb as (Hr' & Hn1' & Hn2' & (win & s & Hs & Hsc) & Hdd).
    split; [lia|]. split; [congruence|]. split; [congruence|]. split.
    { intros k. rewrite Hsc, <- Hk. eapply insert_is_Some_present. exact Hs. }
    destruct Hdd as [[Hdd Hdl']|(Hlt & Hdd & Hdl')]; repeat split; lia.
Qed.

(** ** The loop *)

Lemma game_loop_boundary (fuel : nat) (g gf : Game) (w wf : io) :
  game_loop fuel g w = Some (Ok gf wf) ->
  exists n, (n <= fuel)%nat /\ boundary g w n gf wf /\
            loop_test gf wf = Ok false wf.
Proof.
  revert g w. induction fuel as [|fuel IH]; intros g w; simpl;
    destruct (loop_test g w) as [[|] w1|e] eqn:Ht; try discriminate;
    pose proof (proj1 (loop_test_Ok _ _ _ _ Ht)) as ->.
  - intros [= <- <-]. exists 0%nat. split; [lia|]. split; [apply boundary_start | exact Ht].
  - destruct (round_body g w) as [g1 w1|e] eqn:Hb; [|discriminate].
    intros H. apply IH in H as (n & Hn & Hbd & Hf).
    exists (S n). split; [lia|]. split; [|exact Hf].
    eapply boundary_front; eassumption.
  - intros [= <- <-]. exists 0%nat. split; [lia|]. split; [apply boundary_start | exact Ht].
Qed.

Lemma game_loop_enough (fuel : nat) (g : Game) (w : io) :
  16 - round_num g <= Z.of_nat fuel -> game_loop fuel g w <> None.
Proof.
  revert g w. induction fuel as [|fuel IH]; intros g w Hf; simpl;
    destruct (loop_test g w) as [[|] w1|e] eqn:Ht; try discriminate;
    pose proof (proj1 (loop_test_Ok _ _ _ _ Ht)) as ->;
    apply loop_test_true in Ht as [Hr _].
  - lia.
  - destruct (round_body g w) as [g1 w1|e] eqn:Hb; [|discriminate].
    apply IH. apply round_body_frame in Hb as (Hr' & _). lia.
Qed.

Lemma game_loop_more (fuel fuel' : nat) (g : Game) (w : io) (r : res Game) :
  game_loop fuel g w = Some r -> (fuel <= fuel')%nat ->
  game_loop fuel' g w = Some r.
Proof.
  revert fuel' g w. induction fuel as [|fuel IH]; intros fuel' g w; simpl;
    destruct (loop_test g w) as [[|] w1|e] eqn:Ht; intros H Hle;
    try discriminate H;
    try (destruct fuel'; simpl; rewrite Ht; exact H).
  destruct fuel' as [|fuel']; [lia|]. simpl. rewrite Ht.
  destruct (round_body g w1) as [g1 w2|e]; [|exact H].
  apply IH; [exact H | lia].
Qed.

Lemma game_loop_of_boundary (n : nat) (g gf : Game) (w wf : io) :
  boundary g w n gf wf -> loop_test gf wf = Ok false wf ->
  forall fuel, (n <= fuel)%nat -> game_loop fuel g w = Some (Ok gf wf).
Proof.
  revert g w. induction n as [|n IH]; intros g w H Hf fuel Hle.
  - inversion H; subst. destruct fuel; simpl; rewrite Hf; reflexivity.
  - apply boundary_uncons in H as (g1 & w1 & Ht & Hb & Hrest).
    destruct fuel as [|fuel]; [lia|]. simpl. rewrite Ht, Hb.
    apply IH; [exact Hrest | exact Hf | lia].
Qed.

(** ** Games *)

Lemma boundary_round_le (g0 g : Game) (w0 w : io) (n : nat) :
  boundary g0 w0 n g w -> round_num g0 <= 16 -> round_num g <= 16.
Proof.
  induction 1 as [|n g1 w1 g2 w2 _ IH Ht Hb]; intros H0; [exact H0|].
  apply loop_test_true in Ht as [Hr _].
  apply round_body_frame in Hb as (Hr' & _). lia.
Qed.

(** What holds at every round boundary of a game. *)
Lemma game_inv (cards : list Card) (coin : bool) (w0 w1 w : io) (g0 g : Game)
    (n : nat) :
  setup cards coin w0 = Ok g0 w1 -> boundary g0 w1 n g w ->
  round_num g = Z.of_nat n /\ (n <= 16)%nat /\
  name (p1 g) = name (p1 g0) /\ name (p2 g) = name (p2 g0) /\
  is_Some (score_of g P1) /\ is_Some (score_of g P2) /\
  0 <= deals_done g <= 2 /\
  Z.of_nat (dealings (stdout w)) = Z.of_nat (dealings (stdout w0)) + deals_done g.
Proof.
  intros Hs Hb.
  apply setup_Ok in Hs
    as (n1 & n2 & rest & _ & _ & _ & Hsc & _ & _ & Hdd & Hr & _ & Hdl).
  pose proof (boundary_round_le _ _ _ _ _ Hb) as Hle.
  apply boundary_inv in Hb as (Hr' & Hn1 & Hn2 & Hk & Hd0 & Hd2 & Hdl').
  split; [lia|]. split; [lia|]. split; [exact Hn1|]. split; [exact Hn2|].
  unfold score_of. simpl. rewrite Hn1, Hn2, !Hk, Hsc.
  split; [|split; [|split; [lia|lia]]].
  - rewrite lookup_insert_is_Some. destruct (decide (name (p2 g0) = name (p1 g0))); auto.
    right. split; [assumption|]. rewrite lookup_insert_eq. eauto.
  - rewrite lookup_insert_eq. eauto.
Qed.

(** C5.  The game ends exactly at a round boundary (never inside a round)
    where the round counter has reached 16 or the scores [s1] of Player 1
    and [s2] of Player 2 satisfy the early-termination predicate
    ([s1 >= 9] and [s2 >= 1]) or ([s2 >= 9] and [s1 >= 1]): the state in
    which the loop ends is such a boundary, and the loop ends in every such
    boundary. *)
Theorem game_over_iff (cards : list Card) (coin : bool) (w0 w1 : io) (g0 : Game) :
  setup cards coin w0 = Ok g0 w1 ->
  forall gf wf,
    game_loop 16 g0 w1 = Some (Ok gf wf) <->
    exists n s1 s2,
      boundary g0 w1 n gf wf /\
      score_of gf P1 = Some s1 /\ score_of gf P2 = Some s2 /\
      (round_num gf = 16 \/
       (s1 >= 9 /\ s2 >= 1) \/ (s2 >= 9 /\ s1 >= 1)).
Proof.
  intros Hs gf wf. split.
  - intros H. apply game_loop_boundary in H as (n & _ & Hb & Hf).
    destruct (game_inv _ _ _ _ _ _ _ _ Hs Hb)
      as (Hr & Hn & _ & _ & [s1 H1] & [s2 H2] & _).
    exists n, s1, s2. split; [exact Hb|]. split; [exact H1|]. split; [exact H2|].
    apply loop_test_false in Hf; [|eauto|eauto].
    destruct Hf as [Hge|(s1' & s2' & H1' & H2' & He)]; [left; lia|].
    right. apply early_termination_true in He. congruence.
  - intros (n & s1 & s2 & Hb & H1 & H2 & Hover).
    destruct (game_inv _ _ _ _ _ _ _ _ Hs Hb) as (Hr & Hn & _).
    eapply game_loop_of_boundary; [exact Hb| |exact Hn].
    apply loop_test_false; [eauto|eauto|].
    destruct Hover as [H16|Hearly]; [left; lia|].
    right. exists s1, s2. split; [exact H1|]. split; [exact H2|].
    apply early_termination_true. exact Hearly.
Qed.

(** C6 (amended).  The loop of a game ends within 16 turns, more fuel
    changes nothing, and the round counter counts the rounds played.  The
    game ends after fewer than 16 rounds if and only if the
    early-termination predicate holds at a round boundary before the
    16th round is played. *)
Theorem loop_terminates (cards : list Card) (coin : bool) (w0 w1 : io) (g0 : Game) :
  setup cards coin w0 = Ok g0 w1 ->
  game_loop 16 g0 w1 <> None /\
  (forall fuel, (16 <= fuel)%nat -> game_loop fuel g0 w1 = game_loop 16 g0 w1) /\
  (forall n g w, boundary g0 w1 n g w -> round_num g = Z.of_nat n /\ (n <= 16)%nat) /\
  (forall gf wf,
     game_loop 16 g0 w1 = Some (Ok gf wf) ->
     exists n, (n <= 16)%nat /\ boundary g0 w1 n gf wf /\
       ((n < 16)%nat <->
        exists m g w, (m < 16)%nat /\ boundary g0 w1 m g w /\ early_end g)).
Proof.
  intros Hs.
  assert (Hne : game_loop 16 g0 w1 <> None).
  { apply game_loop_enough.
    apply setup_Ok in Hs as (? & ? & ? & _ & _ & _ & _ & _ & _ & _ & Hr & _).
    rewrite Hr. simpl. lia. }
  split; [exact Hne|]. split; [|split].
  - intros fuel Hle. destruct (game_loop 16 g0 w1) as [r|] eqn:E; [|congruence].
    eapply game_loop_more; eassumption.
  - intros n g w Hb.
    destruct (game_inv _ _ _ _ _ _ _ _ Hs Hb) as (Hr & Hn & _). auto.
  - intros gf wf H. apply game_loop_boundary in H as (n & Hn & Hb & Hf).
    exists n. split; [exact Hn|]. split; [exact Hb|].
    destruct (game_inv _ _ _ _ _ _ _ _ Hs Hb) as (Hr & _ & _ & _ & H1 & H2 & _).
    split.
    + intros Hlt. exists n, gf, wf. split; [exact Hlt|]. split; [exact Hb|].
      apply loop_test_false in Hf as [Hge|He]; auto. lia.
    + intros (m & g & w & Hm & Hbm & He).
      destruct (decide (n < 16)%nat) as [Hlt|Hge]; [exact Hlt|]. exfalso.
      destruct (boundary_earlier _ _ _ _ n m Hb ltac:(lia)) as (g' & w' & Hbm' & Ht).
      destruct (boundary_det _ _ _ _ _ _ _ Hbm Hbm') as [<- <-].
      apply loop_test_true in Ht as [_ Hne']. auto.
Qed.

(** Evaluates [t] and records the result as the equation [H]. *)
Ltac eval_as H t :=
  let v := eval vm_compute in t in
  assert (H : t = v) by (vm_compute; reflexivity).

(** Runs [setup] and [game_loop 16] on a concrete deck, coin and terminal:
    [E0] is the equation of the setup, [E1] the one of the loop. *)
Ltac run_game E0 E1 cards coin w :=
  eval_as E0 (setup cards coin w);
  match type of E0 with
  | _ = Ok ?g ?w1 => eval_as E1 (game_loop 16 g w1)
  end.

Lemma unshuffled_shuffled : Deck.shuffled Deck.unshuffled.
Proof. unfold Deck.shuffled. reflexivity. Qed.

Lemma game_over_iff_witness :
  exists g0 w1 gf wf n s1 s2,
    setup Deck.unshuffled true (mkIO moon_lines []) = Ok g0 w1 /\
    game_loop 16 g0 w1 = Some (Ok gf wf) /\
    boundary g0 w1 n gf wf /\
    score_of gf P1 = Some s1 /\ score_of gf P2 = Some s2 /\
    (round_num gf = 16 \/ (s1 >= 9 /\ s2 >= 1) \/ (s2 >= 9 /\ s1 >= 1)).
Proof.
  run_game E0 E1 Deck.unshuffled true (mkIO moon_lines []).
  destruct (proj1 (game_over_iff _ _ _ _ _ E0 _ _) E1)
    as (n & s1 & s2 & Hb & H1 & H2 & Hover).
  eexists _, _, _, _, n, s1, s2. split; [exact E0|]. split; [exact E1|].
  split; [exact Hb|]. split; [exact H1|]. split; [exact H2 | exact Hover].
Defined.

Lemma loop_terminates_witness :
  exists g0 w1,
    setup Deck.unshuffled true (mkIO same_name_lines []) = Ok g0 w1 /\
    game_loop 16 g0 w1 <> None /\
    game_loop 40 g0 w1 = game_loop 16 g0 w1.
Proof.
  eval_as E0 (setup Deck.unshuffled true (mkIO same_name_lines [])).
  destruct (loop_terminates _ _ _ _ _ E0) as (Hne & Hmore & _).
  eexists _, _. split; [exact E0|]. split; [exact Hne|].
  apply Hmore. lia.
Defined.

(** C6, as stated: the game would end after fewer than 16 rounds whenever
    the early-termination predicate holds at a round boundary.  In this game
    the score is 8-7 after round 15 and 9-7 after round 16: the predicate
    holds at the boundary after the 16th round, and 16 rounds were played. *)
Lemma nine_seven_counterexample :
  exists g0 w1 gf wf,
    Deck.shuffled Deck.unshuffled /\
    setup Deck.unshuffled false (mkIO nine_seven_lines []) = Ok g0 w1 /\
    game_loop 16 g0 w1 = Some (Ok gf wf) /\
    boundary g0 w1 16 gf wf /\ round_num gf = 16 /\
    score_of gf P1 = Some 9 /\ score_of gf P2 = Some 7 /\
    early_end gf.
Proof.
  run_game E0 E1 Deck.unshuffled false (mkIO nine_seven_lines []).
  pose proof (game_loop_boundary _ _ _ _ _ E1) as (n & Hn & Hb & _).
  pose proof (boundary_inv _ _ _ _ _ Hb) as (Hr & _).
  assert (n = 16%nat) as -> by (cbn [round_num] in Hr; lia).
  eexists _, _, _, _. split; [exact unshuffled_shuffled|].
  split; [exact E0|]. split; [exact E1|]. split; [exact Hb|].
  split; [reflexivity|]. split; [vm_compute; reflexivity|].
  split; [vm_compute; reflexivity|].
  exists 9, 7. repeat split; vm_compute; reflexivity.
Qed.

(** ** The additional deal *)

(** C7.  In a round, the additional deal happens only if at its check point
    (after the trick and the reveal) both hands hold exactly 4 cards and the
    counter of deals is below 2; it then gives 4 cards to each player and
    adds one to the counter.  In every game the counter stays between 0 and
    2 and equals the number of additional deals announced so far. *)
Theorem additional_deal_cap :
  (forall g w g' w',
     round_body g w = Ok g' w' ->
     exists gc wc w3 u,
       (let! g := play_trick g in reveal g) w = Ok gc wc /\
       deal_additional gc wc = Ok g' w3 /\
       show_score g' w3 = Ok u w' /\
       deals_done gc = deals_done g /\
       ((length (hand (p1 gc)) = 4%nat /\ length (hand (p2 gc)) = 4%nat /\
         deals_done gc < 2 /\
         length (hand (p1 g')) = 8%nat /\ length (hand (p2 g')) = 8%nat /\
         deals_done g' = deals_done gc + 1 /\
         dealings (stdout w') = S (dealings (stdout w)))
        \/
        (~ (length (hand (p1 gc)) = 4%nat /\ length (hand (p2 gc)) = 4%nat /\
            deals_done gc < 2) /\
         g' = gc /\ dealings (stdout w') = dealings (stdout w)))) /\
  (forall cards coin w0 g0 w1 n g w,
     setup cards coin w0 = Ok g0 w1 -> boundary g0 w1 n g w ->
     0 <= deals_done g <= 2 /\
     Z.of_nat (dealings (stdout w)) = Z.of_nat (dealings (stdout w0)) + deals_done g).
Proof.
  split.
  - intros g w g' w' H.
    apply round_body_Ok in H as (gc & wc & w3 & u & Hpre & Hdeal & Hshow).
    exists gc, wc, w3, u. split; [exact Hpre|]. split; [exact Hdeal|].
    split; [exact Hshow|].
    apply show_score_Ok in Hshow. inv_io.
    match goal with H : play_trick _ _ = _ |- _ =>
      apply play_trick_Ok in H as (_ & Hdd & _ & _ & _ & Hd1 & _) end.
    apply reveal_Ok in Hpre as [-> Hd2]. split; [exact Hdd|].
    apply deal_additional_Ok in Hdeal
      as [(Hdue & (cs1 & cs2 & d1 & Hc1 & Hc2 & Hh1 & Hh2) & Hdd' & Hd3 & _)
         |(Hdue & -> & ->)].
    + left. apply deal_due_true in Hdue as (Hl1 & Hl2 & Hlt).
      apply deal_Some in Hc1 as [_ Hlc1]. apply deal_Some in Hc2 as [_ Hlc2].
      rewrite Hh1, Hh2, !length_app, Hl1, Hl2, Hlc1, Hlc2.
      repeat split; try assumption. congruence.
    + right. split; [|split; [reflexivity | congruence]].
      intros Hg. apply deal_due_true in Hg. congruence.
  - intros cards coin w0 g0 w1 n g w Hs Hb.
    destruct (game_inv _ _ _ _ _ _ _ _ Hs Hb) as (_ & _ & _ & _ & _ & _ & Hdd & Hdl).
    auto.
Qed.

Lemma additional_deal_cap_witness :
  exists g0 w1 gf wf,
    setup Deck.unshuffled true (mkIO moon_lines []) = Ok g0 w1 /\
    game_loop 16 g0 w1 = Some (Ok gf wf) /\
    deals_done gf = 2 /\ dealings (stdout wf) = 2%nat.
Proof.
  run_game E0 E1 Deck.unshuffled true (mkIO moon_lines []).
  pose proof (game_loop_boundary _ _ _ _ _ E1) as (n & _ & Hb & _).
  pose proof (proj2 additional_deal_cap _ _ _ _ _ _ _ _ E0 Hb) as [_ Hd].
  eexists _, _, _, _. split; [exact E0|]. split; [exact E1|].
  split; [reflexivity|].
  apply Nat2Z.inj. rewrite Hd. reflexivity.
Defined.

(** ** Drawing and revealing *)

Lemma set_deck_same (g : Game) : set_deck (deck g) g = g.
Proof. destruct g. reflexivity. Qed.

(** C8.  On a deck that is not empty [draw] removes and returns its last
    card, and the deck is one card shorter; on the empty deck it returns no
    card and the deck stays empty.  The reveal of a round prints the card
    drawn; on the empty deck it prints nothing and changes nothing, and the
    round goes on with the check of the additional deal and the score. *)
Theorem draw_and_reveal :
  (forall cards : list Card,
     cards <> [] ->
     exists c rest,
       cards = rest ++ [c] /\ Deck.draw cards = (Some c, rest) /\
       length cards = S (length rest)) /\
  Deck.draw [] = (None, []) /\
  (forall g w c rest,
     deck g = rest ++ [c] ->
     reveal g w = Ok (set_deck rest g) (mkIO (stdin w) (stdout w ++ [OutRevealed c]))) /\
  (forall g w, deck g = [] -> reveal g w = Ok g w) /\
  (forall g w,
     deck g = [] ->
     round_body g w =
     (let! g := play_trick g in
      let! g := deal_additional g in
      let! _ := show_score g in
      ret g) w).
Proof.
  split; [|split; [|split; [|split]]].
  - intros cards Hne. destruct (draw_nonempty cards Hne) as (c & rest & -> & Hd).
    exists c, rest. repeat split; [exact Hd|]. rewrite length_app. simpl. lia.
  - reflexivity.
  - intros g w c rest Hd. unfold reveal.
    destruct (draw_nonempty (deck g)) as (c' & rest' & Hd' & ->).
    { rewrite Hd. destruct rest; discriminate. }
    rewrite Hd in Hd'. apply app_inj_tail in Hd' as [<- <-]. reflexivity.
  - intros g w Hd. unfold reveal. rewrite Hd. simpl.
    rewrite <- Hd, set_deck_same. reflexivity.
  - intros g w Hd. unfold round_body, bind.
    destruct (play_trick g w) as [g1 w1|e] eqn:Hp; [|reflexivity].
    apply play_trick_Ok in Hp as (_ & _ & Hdk & _).
    unfold reveal. rewrite Hdk, Hd. simpl.
    rewrite <- Hd, <- Hdk, set_deck_same. reflexivity.
Qed.

Lemma draw_and_reveal_witness :
  (exists c rest,
     Deck.unshuffled = rest ++ [c] /\ Deck.draw Deck.unshuffled = (Some c, rest) /\
     length Deck.unshuffled = S (length rest)) /\
  reveal last_round (mkIO [] []) = Ok last_round (mkIO [] []) /\
  exists g',
    round_body last_round (mkIO ["1"; "1"] []) =
    Ok g' (mkIO []
      [OutRound 16;
       OutHand "A" [Card.mk "Hearts" "Queen" 12];
       OutChoice 1 (Card.mk "Hearts" "Queen" 12); OutAskCard "A" 1;
       OutLeads "A" (Card.mk "Hearts" "Queen" 12);
       OutMustFollow "B" "Hearts";
       OutChoice 1 (Card.mk "Hearts" "8" 8); OutAskCard "B" 1;
       OutPlays "B" (Card.mk "Hearts" "8" 8);
       OutWinsTrick "A";
       OutScore "A" 9 "B" 7]) /\
    deck g' = [] /\ round_num g' = 16.
Proof.
  destruct draw_and_reveal as (Hdraw & _ & _ & Hrev & Hround).
  split; [|split].
  - apply Hdraw. vm_compute. discriminate.
  - apply Hrev. reflexivity.
  - rewrite Hround by reflexivity.
    eexists. split; [vm_compute; reflexivity|].
    split; reflexivity.
Defined.

(** ** The final report *)

(** C1 (amended).  At game end, if one player's score is exactly 0 and the
    other's is exactly 16, the final report names the player with score 0 as
    having shot the moon and prints 17, a dash and the score of the other
    player: wins 17-16. *)
Theorem shoot_the_moon_report (g : Game) (w : io) (s1 s2 : Z) :
  score_of g P1 = Some s1 -> score_of g P2 = Some s2 ->
  (s1 = 0 /\ s2 = 16 ->
   game_end g w =
   Ok tt (mkIO (stdin w)
            (stdout w ++ [OutGameOver;
                          OutFinalScore (name (p1 g)) 0 (name (p2 g)) 16;
                          OutShotMoon (name (p1 g)) 16]))) /\
  (s2 = 0 /\ s1 = 16 ->
   game_end g w =
   Ok tt (mkIO (stdin w)
            (stdout w ++ [OutGameOver;
                          OutFinalScore (name (p1 g)) 16 (name (p2 g)) 0;
                          OutShotMoon (name (p2 g)) 16]))) /\
  (forall p, render (OutShotMoon p 16) = p +:+ " shot the moon and wins 17-16!").
Proof.
  intros H1 H2. unfold game_end, bind, print. rewrite H1, H2. simpl.
  split; [|split].
  - intros [-> ->]. simpl. rewrite <- !app_assoc. reflexivity.
  - intros [-> ->]. simpl. rewrite <- !app_assoc. reflexivity.
  - intros p. reflexivity.
Qed.

Lemma shoot_the_moon_report_witness :
  game_end (mkGame (mkPlayer "A" []) (mkPlayer "B" []) []
                   (<["B" := 0]> (<["A" := 16]> ∅)) P1 P2 2 16) (mkIO [] []) =
  Ok tt (mkIO [] [OutGameOver; OutFinalScore "A" 16 "B" 0; OutShotMoon "B" 16]).
Proof.
  refine (proj1 (proj2 (shoot_the_moon_report _ (mkIO [] []) 16 0 _ _)) _);
    [reflexivity | reflexivity | split; reflexivity].
Defined.

(** C1, as stated: with 16 for Player 1 and 0 for Player 2 the report would
    say that Player 1 shot the moon and wins 17-0.  In the game where
    Player 1 takes all 16 tricks, the report says that Player 2 shot the
    moon and wins 17-16. *)
Lemma shoot_the_moon_counterexample :
  exists w,
    Deck.shuffled Deck.unshuffled /\
    main 16 Deck.unshuffled true (mkIO moon_lines []) = Some (Ok tt w) /\
    OutFinalScore "A" 16 "B" 0 ∈ stdout w /\
    last (render <$> stdout w) = Some "B shot the moon and wins 17-16!" /\
    "A shot the moon and wins 17-0!" ∉ (render <$> stdout w).
Proof.
  eval_as E (main 16 Deck.unshuffled true (mkIO moon_lines [])).
  eexists. split; [exact unshuffled_shuffled|]. split; [exact E|].
  split; [|split].
  - apply (bool_decide_unpack _). vm_compute. exact I.
  - vm_compute. reflexivity.
  - apply (proj1 (bool_decide_eq_false _)). vm_compute. reflexivity.
Qed.

(** ** Two players with one name *)

Lemma str_or_nonempty (s d : string) : s <> "" -> str_or s d = s.
Proof. destruct s; [congruence | reflexivity]. Qed.

Lemma early_termination_same (s : Z) :
  early_termination s s = bool_decide (s >= 9).
Proof.
  unfold early_termination. repeat case_bool_decide; simpl; try reflexivity; lia.
Qed.

(** C10.  When both players enter the same name (the lines typed being
    ASCII text, equal once stripped, and not blank), the score dict has the
    one entry of that name: after [k] rounds it holds [k] for both players,
    each trick adding one to it whoever wins, and the loop goes on exactly
    while that count is below 9, so that a game played to its end has 9
    rounds.  In any state with equal names the two players read the same
    entry. *)
Theorem same_name_shared_score (cards : list Card) (coin : bool) (w0 w1 : io)
    (g0 : Game) (n1 n2 : string) (rest : list string) :
  ascii_input w0 ->
  stdin w0 = n1 :: n2 :: rest ->
  strip n1 = strip n2 -> strip n1 <> "" ->
  setup cards coin w0 = Ok g0 w1 ->
  name (p1 g0) = strip n1 /\ name (p2 g0) = strip n1 /\
  (forall g, name (p1 g) = name (p2 g) -> score_of g P1 = score_of g P2) /\
  (forall (k : nat) g w,
     boundary g0 w1 k g w ->
     score g = {[ strip n1 := Z.of_nat k ]} /\ size (score g) = 1%nat /\
     score_of g P1 = Some (Z.of_nat k) /\ score_of g P2 = Some (Z.of_nat k) /\
     (k <= 9)%nat /\
     loop_test g w = Ok (bool_decide (k < 9)%nat) w) /\
  (forall gf wf,
     game_loop 16 g0 w1 = Some (Ok gf wf) ->
     round_num gf = 9 /\ score_of gf P1 = Some 9 /\ score_of gf P2 = Some 9).
Proof.
  intros _ Hin Heq Hne Hs. pose proof Hs as Hs'.
  apply setup_Ok in Hs'
    as (m1 & m2 & rest' & Hin' & Hn1 & Hn2 & Hsc & _ & _ & _ & Hr0 & _).
  rewrite Hin in Hin'. injection Hin' as <- <- <-.
  rewrite <- Heq in Hn2. rewrite str_or_nonempty in Hn1, Hn2 by exact Hne.
  rewrite Hn1, Hn2, insert_insert_eq, insert_empty in Hsc.
  assert (Hscore : forall (k : nat) g w,
            boundary g0 w1 k g w ->
            score g = {[ strip n1 := Z.of_nat k ]} /\ (k <= 9)%nat).
  { induction 1 as [|k g1 w2 g2 w3 Hb IH Ht Hbody].
    - split; [exact Hsc | lia].
    - destruct IH as [IHs _].
      apply boundary_inv in Hb as (_ & Hm1 & Hm2 & _).
      apply loop_test_true in Ht as [_ Hne9].
      apply round_body_frame in Hbody as (_ & _ & _ & (win & s & Hw & Hsc') & _).
      assert (Hnm : name (player g1 win) = strip n1)
        by (destruct win; simpl; congruence).
      unfold score_of in Hw. rewrite Hnm, IHs, lookup_singleton_eq in Hw.
      injection Hw as <-. rewrite Hsc', Hnm, IHs, insert_singleton_eq.
      split; [f_equal; lia|].
      destruct (decide (k < 9)%nat) as [Hlt|Hge]; [lia|]. exfalso. apply Hne9.
      exists (Z.of_nat k), (Z.of_nat k). unfold score_of. simpl.
      rewrite Hm1, Hm2, Hn1, Hn2, IHs, lookup_singleton_eq.
      repeat split. rewrite early_termination_same. apply bool_decide_eq_true. lia. }
  assert (Hall : forall (k : nat) g w,
            boundary g0 w1 k g w ->
            score g = {[ strip n1 := Z.of_nat k ]} /\ size (score g) = 1%nat /\
            score_of g P1 = Some (Z.of_nat k) /\ score_of g P2 = Some (Z.of_nat k) /\
            (k <= 9)%nat /\
            loop_test g w = Ok (bool_decide (k < 9)%nat) w).
  { intros k g w Hb. destruct (Hscore k g w Hb) as [Hg Hk].
    destruct (game_inv _ _ _ _ _ _ _ _ Hs Hb) as (Hr & _ & Hm1 & Hm2 & _).
    assert (H1 : score_of g P1 = Some (Z.of_nat k))
      by (unfold score_of; simpl; rewrite Hm1, Hn1, Hg; apply lookup_singleton_eq).
    assert (H2 : score_of g P2 = Some (Z.of_nat k))
      by (unfold score_of; simpl; rewrite Hm2, Hn2, Hg; apply lookup_singleton_eq).
    split; [exact Hg|]. split; [rewrite Hg; apply map_size_singleton|].
    split; [exact H1|]. split; [exact H2|]. split; [exact Hk|].
    unfold loop_test. rewrite H1, H2, Hr. rewrite bool_decide_true by lia.
    simpl. unfold bind, ret. rewrite early_termination_same. f_equal.
    repeat case_bool_decide; simpl; try reflexivity; lia. }
  split; [exact Hn1|]. split; [exact Hn2|].
  split; [intros g Hg; unfold score_of; simpl; rewrite Hg; reflexivity|].
  split; [exact Hall|].
  intros gf wf H. apply game_loop_boundary in H as (k & _ & Hb & Hf).
  destruct (Hall k gf wf Hb) as (_ & _ & H1 & H2 & Hk & Ht).
  destruct (game_inv _ _ _ _ _ _ _ _ Hs Hb) as (Hr & _).
  rewrite Ht in Hf. injection Hf as Hf. apply bool_decide_eq_false in Hf.
  assert (k = 9%nat) as -> by lia. auto.
Qed.

Lemma same_name_shared_score_witness :
  exists g0 w1 gf wf,
    setup Deck.unshuffled true (mkIO same_name_lines []) = Ok g0 w1 /\
    name (p1 g0) = "A" /\ name (p2 g0) = "A" /\
    game_loop 16 g0 w1 = Some (Ok gf wf) /\
    round_num gf = 9 /\ score_of gf P1 = Some 9 /\ score_of gf P2 = Some 9.
Proof.
  run_game E0 E1 Deck.unshuffled true (mkIO same_name_lines []).
  assert (Hascii : ascii_input (mkIO same_name_lines []))
    by (apply (bool_decide_unpack _); vm_compute; exact I).
  destruct (same_name_shared_score Deck.unshuffled true (mkIO same_name_lines [])
              _ _ "A" "A" (replicate 18 "1") Hascii eq_refl eq_refl
              ltac:(discriminate) E0)
    as (Hn1 & Hn2 & _ & _ & Hend).
  eexists _, _, _, _. split; [exact E0|]. split; [exact Hn1|]. split; [exact Hn2|].
  split; [exact E1|]. exact (Hend _ _ E1).
Defined.

(** * Further properties of the code *)

(** ** Building cards and the deck *)

Lemma VALUE_MAP_None (r : string) :
  Card.VALUE_MAP !! r = None <-> r ∉ Card.RANKS.
Proof.
  split.
  - intros Hn Hin. apply list_elem_of_lookup in Hin as [i Hi].
    assert (H : Card.VALUE_MAP !! r = Some (Z.of_nat i + 2))
      by (apply VALUE_MAP_lookup; eauto).
    congruence.
  - intros Hnin. destruct (Card.VALUE_MAP !! r) as [v|] eqn:E; [|reflexivity].
    apply VALUE_MAP_lookup in E as (i & Hi & _).
    exfalso. apply Hnin. eapply list_elem_of_lookup_2. exact Hi.
Qed.

(** X1.  [Card.__init__] raises KeyError exactly for a rank that is not one
    of the 12 ranks (there is no King); for one of the 12 ranks it builds a
    card with the given suit, whatever the suit is. *)
Theorem card_init_KeyError (s r : string) :
  (Card.init s r = None <-> r ∉ Card.RANKS) /\
  (r ∈ Card.RANKS -> exists v, Card.init s r = Some (Card.mk s r v)) /\
  Card.init s "King" = None.
Proof.
  unfold Card.init. split; [|split].
  - rewrite <- VALUE_MAP_None.
    destruct (Card.VALUE_MAP !! r); simpl; split; congruence.
  - intros Hin. destruct (Card.VALUE_MAP !! r) as [v|] eqn:E; simpl; [eauto|].
    apply VALUE_MAP_None in E. contradiction.
  - reflexivity.
Qed.

Lemma card_init_KeyError_witness :
  exists v, Card.init "Stars" "Jack" = Some (Card.mk "Stars" "Jack" v).
Proof.
  apply (proj1 (proj2 (card_init_KeyError "Stars" "Jack"))).
  apply list_elem_of_In. simpl. auto 20.
Defined.

Lemma unshuffled_members (c : Card) :
  c ∈ Deck.unshuffled <->
  Card.suit c ∈ Card.SUITS /\ Card.init (Card.suit c) (Card.rank c) = Some c.
Proof.
  split.
  - intros Hin.
    set (l := Deck.unshuffled) in Hin. vm_compute in l. subst l.
    repeat match goal with
    | H : _ ∈ _ :: _ |- _ => apply elem_of_cons in H; destruct H as [->|H]
    | H : _ ∈ [] |- _ => apply elem_of_nil in H; destruct H
    end.
    all: split; [apply (bool_decide_unpack _); vm_compute; exact I | reflexivity].
  - intros [Hs Hi]. apply init_Some in Hi as (Hv & _ & _).
    apply VALUE_MAP_lookup in Hv as (i & Hi & Hv).
    destruct c as [s r v]. simpl in *. subst v.
    unfold Card.SUITS in Hs.
    repeat match goal with
    | H : _ ∈ _ :: _ |- _ => apply elem_of_cons in H; destruct H as [->|H]
    | H : _ ∈ [] |- _ => apply elem_of_nil in H; destruct H
    end.
    all: do 12 (destruct i as [|i];
                [injection Hi as <-; apply (bool_decide_unpack _); vm_compute; exact I|]).
    all: discriminate Hi.
Qed.

(** X2.  The deck of [Deck.__init__], in whatever order the shuffle leaves
    it, has 48 cards, no card twice, and holds exactly the cards
    [Card(s, r)] for [s] one of the 4 suits and [r] one of the 12 ranks. *)
Theorem deck_complete (cards : list Card) :
  Deck.shuffled cards ->
  length cards = 48%nat /\ NoDup cards /\
  (forall c, c ∈ cards <->
     Card.suit c ∈ Card.SUITS /\ Card.init (Card.suit c) (Card.rank c) = Some c).
Proof.
  intros H. destruct (shuffled_NoDup cards H) as [Hnd Hlen].
  split; [exact Hlen|]. split; [exact Hnd|].
  intros c. unfold Deck.shuffled in H. rewrite H. apply unshuffled_members.
Qed.

Lemma deck_complete_witness :
  length (reverse Deck.unshuffled) = 48%nat /\ NoDup (reverse Deck.unshuffled).
Proof.
  assert (H : Deck.shuffled (reverse Deck.unshuffled))
    by (unfold Deck.shuffled; apply reverse_Permutation).
  destruct (deck_complete _ H) as (Hl & Hn & _). split; assumption.
Defined.

(** ** Dealing *)

(** X3.  [deal(n)] succeeds exactly when the deck has at least [n] cards: it
    then returns the last [n] cards, the last one first, and leaves the
    cards before them; with fewer than [n] cards it raises IndexError. *)
Theorem deal_spec (n : nat) (cards : list Card) :
  ((n <= length cards)%nat ->
   Deck.deal n cards =
   Some (reverse (drop (length cards - n) cards), take (length cards - n) cards)) /\
  ((length cards < n)%nat -> Deck.deal n cards = None).
Proof.
  split.
  - intros Hle. apply deal_Some. split.
    + rewrite reverse_involutive, take_drop. reflexivity.
    + rewrite length_reverse, length_drop. lia.
  - intros Hlt. destruct (Deck.deal n cards) as [[dealt rest]|] eqn:E; [|reflexivity].
    apply deal_Some in E as [-> Hl]. rewrite length_app, length_reverse in Hlt. lia.
Qed.

Lemma deal_spec_witness :
  Deck.deal 2 [Card.mk "Hearts" "2" 2; Card.mk "Hearts" "3" 3; Card.mk "Hearts" "4" 4] =
  Some ([Card.mk "Hearts" "4" 4; Card.mk "Hearts" "3" 3], [Card.mk "Hearts" "2" 2]) /\
  Deck.deal 4 [Card.mk "Hearts" "2" 2; Card.mk "Hearts" "3" 3; Card.mk "Hearts" "4" 4] = None.
Proof.
  split.
  - exact (proj1 (deal_spec 2 [Card.mk "Hearts" "2" 2; Card.mk "Hearts" "3" 3;
                               Card.mk "Hearts" "4" 4]) ltac:(simpl; lia)).
  - exact (proj2 (deal_spec 4 [Card.mk "Hearts" "2" 2; Card.mk "Hearts" "3" 3;
                               Card.mk "Hearts" "4" 4]) ltac:(simpl; lia)).
Defined.

Lemma deal_S (n : nat) (cards : list Card) :
  Deck.deal (S n) cards =
  '(c, cards1) ← pop cards;
  '(cs, cards2) ← Deck.deal n cards1;
  Some (c :: cs, cards2).
Proof. reflexivity. Qed.

(** X4.  Dealing [n + m] cards is dealing [n] cards and then [m] cards from
    what is left, the two hands put one after the other; it fails when
    either deal fails. *)
Theorem deal_add (n m : nat) (cards : list Card) :
  Deck.deal (n + m) cards =
  '(a, rest) ← Deck.deal n cards;
  '(b, rest') ← Deck.deal m rest;
  Some (a ++ b, rest').
Proof.
  revert cards. induction n as [|n IH]; intros cards.
  - change (0 + m)%nat with m. change (Deck.deal 0 cards) with (Some ([] : list Card, cards)).
    simpl. destruct (Deck.deal m cards) as [[b r]|]; reflexivity.
  - change (S n + m)%nat with (S (n + m)). rewrite !deal_S.
    destruct (pop cards) as [[c cards1]|]; [|reflexivity].
    simpl. rewrite IH.
    destruct (Deck.deal n cards1) as [[a r]|]; [|reflexivity]. simpl.
    destruct (Deck.deal m r) as [[b r']|]; reflexivity.
Qed.
(** ** Choosing from the menu *)

Lemma prompt_loop_cons (p : Player) (vc : list Card) (choice : string)
    (rest : list string) (out : list Output) :
  prompt_loop p vc (choice :: rest) out =
  let asked := out ++ menu vc ++ [OutAskCard (name p) (length vc)] in
  let again :=
    prompt_loop p vc rest
      (out ++ menu vc ++ [OutAskCard (name p) (length vc); OutInvalid]) in
  if isdigit choice then
    match int choice with
    | None => Raise ValueError
    | Some v =>
        if bool_decide (0 <= v - 1 < Z.of_nat (length vc)) then
          match vc !! Z.to_nat (v - 1) with
          | Some c => Ok c (mkIO rest asked)
          | None => Raise IndexError
          end
        else again
    end
  else again.
Proof.
  cbn [prompt_loop]. unfold menu. cbv zeta.
  rewrite <- !app_assoc. simpl.
  destruct (isdigit choice); [|reflexivity].
  destruct (int choice) as [v|]; [|reflexivity].
  case_bool_decide; reflexivity.
Qed.

Lemma int_Some (s : string) (v : Z) :
  int s = Some v <->
  (String.length s <= int_max_str_digits)%nat /\ v = int_from 0 s.
Proof.
  unfold int. destruct (decide (String.length s <= int_max_str_digits)%nat).
  - split; [intros [= <-]; auto | intros [_ ->]; reflexivity].
  - split; [discriminate | intros [? _]; contradiction].
Qed.

Lemma int_None (s : string) :
  int s = None <-> (int_max_str_digits < String.length s)%nat.
Proof.
  unfold int. destruct (decide (String.length s <= int_max_str_digits)%nat).
  - split; [discriminate | lia].
  - split; [lia | reflexivity].
Qed.

Lemma int_from_nonneg (s : string) (acc : Z) : 0 <= acc -> 0 <= int_from acc s.
Proof.
  revert acc. induction s as [|c s IH]; intros acc Hacc; simpl; [exact Hacc|].
  apply IH. lia.
Qed.

Lemma int_nonneg (s : string) (v : Z) : int s = Some v -> 0 <= v.
Proof.
  intros H. apply int_Some in H as [_ ->]. apply int_from_nonneg. lia.
Qed.

Lemma int_from_app (s1 s2 : string) (acc : Z) :
  int_from acc (s1 +:+ s2) = int_from (int_from acc s1) s2.
Proof.
  revert acc. induction s1 as [|c s1 IH]; intros acc; [reflexivity|].
  change (String c s1 +:+ s2) with (String c (s1 +:+ s2)). simpl. apply IH.
Qed.

Lemma all_digits_app (s1 s2 : string) :
  all_digits (s1 +:+ s2) = all_digits s1 && all_digits s2.
Proof.
  induction s1 as [|c s1 IH]; [reflexivity|].
  change (String c s1 +:+ s2) with (String c (s1 +:+ s2)). simpl.
  rewrite IH, andb_assoc. reflexivity.
Qed.

(** Digits are ASCII characters. *)
Lemma ascii_isdigit_ascii (c : ascii) : ascii_isdigit c = true -> is_ascii c = true.
Proof.
  destruct c as [[] [] [] [] [] [] [] []]; vm_compute; congruence.
Qed.

Lemma isdigit_ascii (s : string) : isdigit s = true -> all_ascii s = true.
Proof.
  intros H. assert (Hd : all_digits s = true) by (destruct s; [discriminate H | exact H]).
  clear H. induction s as [|c s IH]; [reflexivity|].
  simpl in Hd. apply andb_true_iff in Hd as [Hc Hd]. simpl.
  rewrite (ascii_isdigit_ascii c Hc), (IH Hd). reflexivity.
Qed.

Lemma string_app_assoc (s1 s2 s3 : string) :
  (s1 +:+ s2) +:+ s3 = s1 +:+ (s2 +:+ s3).
Proof.
  induction s1 as [|c s1 IH]; [reflexivity|].
  change (String c s1 +:+ s2) with (String c (s1 +:+ s2)).
  change (String c (s1 +:+ s2) +:+ s3) with (String c ((s1 +:+ s2) +:+ s3)).
  rewrite IH. reflexivity.
Qed.

Lemma pretty_N_char_digit (d : N) :
  (d < 10)%N ->
  ascii_isdigit (pretty_N_char d) = true /\
  Ascii.is_nat (pretty_N_char d) = Some (N.to_nat d).
Proof.
  intros H.
  assert (Hd : (d = 0 \/ d = 1 \/ d = 2 \/ d = 3 \/ d = 4 \/ d = 5 \/ d = 6 \/
               d = 7 \/ d = 8 \/ d = 9)%N) by lia.
  repeat (destruct Hd as [->|Hd]); try subst d; split; reflexivity.
Qed.

Lemma pretty_N_go_app (x : N) (s : string) :
  pretty_N_go x s = pretty_N_go x "" +:+ s.
Proof.
  revert s. induction (N.lt_wf_0 x) as [x _ IH]; intros s.
  destruct (decide (0 < x)%N) as [Hx|Hx].
  - rewrite (pretty_N_go_step x s), (pretty_N_go_step x "") by exact Hx.
    rewrite IH by (apply N.div_lt; lia).
    rewrite (IH (x `div` 10)%N ltac:(apply N.div_lt; lia) (String _ "")).
    rewrite string_app_assoc. reflexivity.
  - assert (x = 0%N) as -> by lia. reflexivity.
Qed.

Lemma pretty_N_go_digits (x : N) :
  all_digits (pretty_N_go x "") = true /\
  int_from 0 (pretty_N_go x "") = Z.of_N x.
Proof.
  induction (N.lt_wf_0 x) as [x _ IH].
  destruct (decide (0 < x)%N) as [Hx|Hx].
  - rewrite (pretty_N_go_step x "") by exact Hx. rewrite pretty_N_go_app.
    destruct (IH (x `div` 10)%N ltac:(apply N.div_lt; lia)) as [IHd IHi].
    destruct (pretty_N_char_digit (x `mod` 10)%N) as [Hd Hn].
    { apply N.mod_lt. lia. }
    rewrite all_digits_app, int_from_app, IHd, IHi. simpl.
    rewrite Hd, Hn. simpl. split; [reflexivity|].
    rewrite N_nat_Z. pose proof (N.div_mod x 10 ltac:(lia)). lia.
  - assert (x = 0%N) as -> by lia. split; reflexivity.
Qed.

(** The decimal text of a natural number is a text of digits, and reads
    back as that number when [int] takes a text of its length. *)
Lemma int_pretty (n : nat) :
  isdigit (pretty (Z.of_nat n)) = true /\
  ((String.length (pretty (Z.of_nat n)) <= int_max_str_digits)%nat ->
   int (pretty (Z.of_nat n)) = Some (Z.of_nat n)).
Proof.
  destruct n as [|n].
  { split; [reflexivity|]. intros _. reflexivity. }
  change (pretty (Z.of_nat (S n))) with (pretty (Npos (Pos.of_succ_nat n))).
  unfold pretty, pretty_N. rewrite decide_False by discriminate.
  destruct (pretty_N_go_digits (Npos (Pos.of_succ_nat n))) as [Hd Hi].
  split.
  - unfold isdigit. destruct (pretty_N_go _ "") eqn:E; [|exact Hd].
    simpl in Hi. lia.
  - intros Hlen. apply int_Some. split; [exact Hlen|]. rewrite Hi. reflexivity.
Qed.

Lemma menu_lookup_from (start : Z) (vc : list Card) (i : nat) (c : Card) :
  vc !! i = Some c ->
  ((fun '(idx, card) => OutChoice idx card) <$> enumerate start vc) !! i
  = Some (OutChoice (start + Z.of_nat i) c).
Proof.
  revert start i. induction vc as [|c0 vc IH]; intros start i H; [discriminate|].
  cbn [enumerate]. rewrite fmap_cons. destruct i as [|i].
  - injection H as ->. cbn. do 2 f_equal. lia.
  - change ((c0 :: vc) !! S i) with (vc !! i) in H.
    rewrite lookup_cons. rewrite (IH (start + 1) i H). do 2 f_equal. lia.
Qed.

(** X5.  The number printed beside a candidate selects it: when the
    candidate [c] is at position [i], the menu shows it with the number
    [i + 1], and a line of digits that [int] reads as [i + 1] makes
    [prompt_card_choice] return [c], after one menu and one prompt and with
    only that line read.  The text [str(i + 1)] is such a line, as long as
    it has no more than [int_max_str_digits] digits. *)
Theorem prompt_selects (p : Player) (vc : list Card) (i : nat) (c : Card)
    (choice : string) (rest : list string) (out : list Output) :
  vc !! i = Some c ->
  isdigit choice = true -> int choice = Some (Z.of_nat (S i)) ->
  menu vc !! i = Some (OutChoice (Z.of_nat (S i)) c) /\
  prompt_card_choice p vc (mkIO (choice :: rest) out) =
    Ok c (mkIO rest (out ++ menu vc ++ [OutAskCard (name p) (length vc)])) /\
  isdigit (pretty (Z.of_nat (S i))) = true /\
  ((String.length (pretty (Z.of_nat (S i))) <= int_max_str_digits)%nat ->
   int (pretty (Z.of_nat (S i))) = Some (Z.of_nat (S i))).
Proof.
  intros Hc Hd Hi. split; [|split; [|apply int_pretty]].
  - unfold menu. rewrite (menu_lookup_from 1 vc i c Hc). do 2 f_equal. lia.
  - unfold prompt_card_choice. cbn [stdin stdout].
    rewrite prompt_loop_cons. cbv zeta. rewrite Hd, Hi.
    pose proof (lookup_lt_Some _ _ _ Hc) as Hlt.
    rewrite bool_decide_true by lia.
    replace (Z.to_nat (Z.of_nat (S i) - 1)) with i by lia.
    rewrite Hc. reflexivity.
Qed.

Lemma prompt_selects_witness :
  prompt_card_choice (mkPlayer "A" [])
    [Card.mk "Hearts" "Queen" 12; Card.mk "Spades" "3" 3]
    (mkIO ["02"; "1"] []) =
  Ok (Card.mk "Spades" "3" 3)
     (mkIO ["1"]
        [OutChoice 1 (Card.mk "Hearts" "Queen" 12);
         OutChoice 2 (Card.mk "Spades" "3" 3); OutAskCard "A" 2]).
Proof.
  exact (proj1 (proj2 (prompt_selects (mkPlayer "A" [])
    [Card.mk "Hearts" "Queen" 12; Card.mk "Spades" "3" 3] 1
    (Card.mk "Spades" "3" 3) "02" ["1"] [] eq_refl eq_refl eq_refl))).
Defined.

Lemma prompt_loop_rejected (p : Player) (vc : list Card) (choice : string)
    (rest : list string) (out : list Output) :
  rejected (length vc) choice ->
  prompt_loop p vc (choice :: rest) out =
  prompt_loop p vc rest (out ++ menu vc ++ [OutAskCard (name p) (length vc); OutInvalid]).
Proof.
  intros [_ Hr]. rewrite prompt_loop_cons. cbv zeta.
  destruct (isdigit choice) eqn:Hd; [|reflexivity].
  destruct Hr as [Hr|(v & -> & Hv)]; [discriminate Hr|].
  rewrite bool_decide_false; [reflexivity|]. lia.
Qed.

(** X6.  A line of ASCII text that is not a number, or is a number that is
    0 or above the number of candidates, is read and refused:
    [prompt_card_choice] prints the menu, the prompt and the refusal, and
    asks again with the lines that are left. *)
Theorem prompt_rejects (p : Player) (vc : list Card) (choice : string)
    (rest : list string) (out : list Output) :
  rejected (length vc) choice ->
  prompt_card_choice p vc (mkIO (choice :: rest) out) =
  prompt_card_choice p vc
    (mkIO rest (out ++ menu vc ++ [OutAskCard (name p) (length vc); OutInvalid])).
Proof.
  intros Hr. unfold prompt_card_choice. cbn [stdin stdout].
  apply prompt_loop_rejected. exact Hr.
Qed.

Lemma prompt_rejects_witness :
  prompt_card_choice (mkPlayer "A" []) [Card.mk "Hearts" "Queen" 12]
    (mkIO ["0"; "x"; "-1"; " 1"; "2"; ""; "1"] []) =
  prompt_card_choice (mkPlayer "A" []) [Card.mk "Hearts" "Queen" 12]
    (mkIO ["x"; "-1"; " 1"; "2"; ""; "1"]
       [OutChoice 1 (Card.mk "Hearts" "Queen" 12); OutAskCard "A" 1; OutInvalid]).
Proof.
  apply (prompt_rejects (mkPlayer "A" []) [Card.mk "Hearts" "Queen" 12] "0").
  split; [reflexivity|]. right. exists 0. split; [reflexivity|]. left. reflexivity.
Defined.

Lemma input_fault_suffix (l1 l2 : list string) (e : exn) :
  l1 `suffix_of` l2 -> input_fault l1 e -> input_fault l2 e.
Proof.
  intros [k ->] [H|[H1 H2]]; [left; exact H|].
  right. split; [exact H1|]. apply Exists_app. right. exact H2.
Qed.

Lemma input_fault_short (lines : list string) (e : exn) :
  Forall (fun line => (String.length line <= int_max_str_digits)%nat) lines ->
  input_fault lines e -> e = EOFError.
Proof.
  intros Hs [H|[_ H]]; [exact H|]. exfalso.
  apply Exists_exists in H as (line & Hin & _ & Hlong).
  rewrite Forall_forall in Hs. specialize (Hs line Hin). lia.
Qed.

Lemma prompt_loop_Raise (p : Player) (vc : list Card) (lines : list string)
    (out : list Output) (e : exn) :
  prompt_loop p vc lines out = Raise e -> input_fault lines e.
Proof.
  revert out. induction lines as [|choice rest IH]; intros out.
  - simpl. intros [= <-]. left. reflexivity.
  - rewrite prompt_loop_cons. cbv zeta.
    assert (Hagain : forall o, prompt_loop p vc rest o = Raise e ->
                               input_fault (choice :: rest) e).
    { intros o H. apply (input_fault_suffix rest); [|exact (IH o H)].
      apply suffix_cons_r. reflexivity. }
    destruct (isdigit choice) eqn:Hd; [|apply Hagain].
    destruct (int choice) as [v|] eqn:Hv.
    + case_bool_decide as Hi; [|apply Hagain].
      destruct (vc !! Z.to_nat (v - 1)) eqn:Hl; [discriminate|].
      apply lookup_ge_None in Hl. lia.
    + intros [= <-]. right. split; [reflexivity|].
      apply Exists_cons_hd. split; [exact Hd|]. apply int_None. exact Hv.
Qed.

Lemma prompt_loop_stdin (p : Player) (vc : list Card) (lines : list string)
    (out : list Output) (c : Card) (w' : io) :
  prompt_loop p vc lines out = Ok c w' -> stdin w' `suffix_of` lines.
Proof.
  revert out. induction lines as [|choice rest IH]; intros out; [discriminate|].
  rewrite prompt_loop_cons. cbv zeta.
  assert (Hagain : forall o, prompt_loop p vc rest o = Ok c w' ->
                             stdin w' `suffix_of` choice :: rest).
  { intros o H. apply suffix_cons_r. exact (IH o H). }
  destruct (isdigit choice); [|apply Hagain].
  destruct (int choice) as [v|]; [|discriminate].
  case_bool_decide; [|apply Hagain].
  destruct (vc !! Z.to_nat (v - 1)); [|discriminate].
  intros [= _ <-]. simpl. apply suffix_cons_r. reflexivity.
Qed.

(** X7.  On ASCII input, [prompt_card_choice] ends only with a card, or with
    EOFError when the lines run out, or with the ValueError of [int] on a
    line of more than [int_max_str_digits] digits.  It raises EOFError when
    every line left is refused.  With no candidate it never returns a card:
    every line is refused or has too many digits. *)
Theorem prompt_exceptions (p : Player) (vc : list Card) (w : io) :
  ascii_input w ->
  (forall e, prompt_card_choice p vc w = Raise e ->
     e = EOFError \/ (e = ValueError /\ Exists too_long (stdin w))) /\
  (Forall (rejected (length vc)) (stdin w) ->
   prompt_card_choice p vc w = Raise EOFError) /\
  (vc = [] ->
   Forall (fun line => rejected 0 line \/ too_long line) (stdin w) /\
   exists e, prompt_card_choice p vc w = Raise e).
Proof.
  intros Hascii.
  assert (Hall : forall lines out,
            Forall (rejected (length vc)) lines ->
            prompt_loop p vc lines out = Raise EOFError).
  { induction lines as [|choice rest IH]; intros out H; [reflexivity|].
    apply Forall_cons in H as [Hr H].
    rewrite (prompt_loop_rejected p vc choice rest out Hr).
    apply IH. exact H. }
  split; [|split].
  - intros e. apply prompt_loop_Raise.
  - intros H. apply Hall. exact H.
  - intros ->.
    assert (Hlines : Forall (fun line => rejected 0 line \/ too_long line) (stdin w)).
    { eapply Forall_impl; [exact Hascii|]. intros line Ha. simpl in Ha.
      destruct (isdigit line) eqn:Hd; [|left; split; auto].
      destruct (int line) as [v|] eqn:Hv.
      - left. split; [exact Ha|]. right. exists v. split; [exact Hv|].
        pose proof (int_nonneg line v Hv). simpl. lia.
      - right. split; [exact Hd|]. apply int_None. exact Hv. }
    split; [exact Hlines|].
    unfold prompt_card_choice. generalize (stdout w).
    induction Hlines as [|line rest [Hr|[Hd Hlong]] _ IH]; intros out.
    + eexists. reflexivity.
    + rewrite (prompt_loop_rejected p [] line rest out Hr). apply IH.
    + rewrite prompt_loop_cons. cbv zeta. rewrite Hd.
      rewrite (proj2 (int_None line) Hlong). eexists. reflexivity.
Qed.

Lemma prompt_exceptions_witness :
  prompt_card_choice (mkPlayer "A" []) [Card.mk "Hearts" "Queen" 12]
    (mkIO ["0"; "x"; "2"] []) = Raise EOFError.
Proof.
  assert (Hascii : ascii_input (mkIO ["0"; "x"; "2"] []))
    by (apply (bool_decide_unpack _); vm_compute; exact I).
  apply (proj1 (proj2 (prompt_exceptions (mkPlayer "A" [])
           [Card.mk "Hearts" "Queen" 12] (mkIO ["0"; "x"; "2"] []) Hascii))).
  simpl.
  apply Forall_cons. split.
  { split; [reflexivity|]. right. exists 0. split; [reflexivity|]. left. reflexivity. }
  apply Forall_cons. split.
  { split; [reflexivity|]. left. reflexivity. }
  apply Forall_cons. split.
  { split; [reflexivity|]. right. exists 2. split; [reflexivity|]. right. reflexivity. }
  apply Forall_nil_2.
Defined.

(** ** Player names *)

Lemma string_app_nil_r (s : string) : s +:+ "" = s.
Proof.
  induction s as [|c s IH]; [reflexivity|].
  change (String c s +:+ "") with (String c (s +:+ "")). rewrite IH. reflexivity.
Qed.

Lemma rev_app_app (s1 s2 : string) :
  String.rev_app s1 s2 = String.rev_app s1 "" +:+ s2.
Proof.
  revert s2. induction s1 as [|a s1 IH]; intros s2; [reflexivity|].
  simpl. rewrite (IH (String a s2)), (IH (String a "")), string_app_assoc.
  reflexivity.
Qed.

Lemma rev_cons (a : ascii) (s : string) :
  String.rev (String a s) = String.rev s +:+ String a "".
Proof. unfold String.rev. simpl. apply rev_app_app. Qed.

Lemma rev_app_distr (s1 s2 : string) :
  String.rev (s1 +:+ s2) = String.rev s2 +:+ String.rev s1.
Proof.
  induction s1 as [|a s1 IH].
  - change ("" +:+ s2) with s2. rewrite string_app_nil_r. reflexivity.
  - change (String a s1 +:+ s2) with (String a (s1 +:+ s2)).
    rewrite !rev_cons, IH, string_app_assoc. reflexivity.
Qed.

Lemma rev_involutive (s : string) : String.rev (String.rev s) = s.
Proof.
  induction s as [|a s IH]; [reflexivity|].
  rewrite rev_cons, rev_app_distr, IH. reflexivity.
Qed.

Lemma all_space_app (s1 s2 : string) :
  all_space (s1 +:+ s2) = all_space s1 && all_space s2.
Proof.
  induction s1 as [|c s1 IH]; [reflexivity|].
  change (String c s1 +:+ s2) with (String c (s1 +:+ s2)). simpl.
  rewrite IH, andb_assoc. reflexivity.
Qed.

Lemma all_space_rev (s : string) : all_space (String.rev s) = all_space s.
Proof.
  induction s as [|c s IH]; [reflexivity|].
  rewrite rev_cons, all_space_app, IH. simpl. rewrite andb_true_r, andb_comm.
  reflexivity.
Qed.

Lemma lstrip_spec (s : string) :
  exists pre, s = pre +:+ lstrip s /\ all_space pre = true /\
              (forall c, first_char (lstrip s) = Some c -> isspace c = false).
Proof.
  induction s as [|a s (pre & Hs & Hpre & Hc)].
  - exists "". repeat split. discriminate.
  - simpl. destruct (isspace a) eqn:Ha.
    + exists (String a pre). split; [|split; [|exact Hc]].
      * change (String a pre +:+ lstrip s) with (String a (pre +:+ lstrip s)).
        rewrite <- Hs. reflexivity.
      * simpl. rewrite Ha, Hpre. reflexivity.
    + exists "". repeat split. simpl. intros c [= <-]. exact Ha.
Qed.

Lemma rstrip_spec (s : string) :
  exists post, s = rstrip s +:+ post /\ all_space post = true /\
               (forall c, last_char (rstrip s) = Some c -> isspace c = false).
Proof.
  destruct (lstrip_spec (String.rev s)) as (pre & Hs & Hpre & Hc).
  exists (String.rev pre). split; [|split].
  - unfold rstrip. rewrite <- rev_app_distr, <- Hs, rev_involutive. reflexivity.
  - rewrite all_space_rev. exact Hpre.
  - unfold last_char, rstrip. rewrite rev_involutive. exact Hc.
Qed.

Lemma strip_spec (s : string) :
  exists pre post,
    s = pre +:+ strip s +:+ post /\ all_space pre = true /\ all_space post = true /\
    trimmed (strip s).
Proof.
  destruct (lstrip_spec s) as (pre & Hs & Hpre & Hfirst).
  destruct (rstrip_spec (lstrip s)) as (post & Hl & Hpost & Hlast).
  exists pre, post. fold (strip s) in Hl, Hlast.
  split; [rewrite <- Hl; exact Hs|]. split; [exact Hpre|]. split; [exact Hpost|].
  split; [|exact Hlast].
  intros c Hc. apply Hfirst. rewrite Hl.
  destruct (strip s); [discriminate Hc | exact Hc].
Qed.

Lemma strip_blank (s : string) : strip s = "" <-> all_space s = true.
Proof.
  destruct (strip_spec s) as (pre & post & Hs & Hpre & Hpost & _). split.
  - intros E. rewrite E in Hs. rewrite Hs, !all_space_app, Hpre, Hpost. reflexivity.
  - intros Hall. destruct (lstrip_spec s) as (pre' & Hs' & _ & Hfirst).
    assert (Hl : lstrip s = "").
    { destruct (lstrip s) as [|c l] eqn:E; [reflexivity|].
      rewrite Hs', all_space_app in Hall. simpl in Hall.
      rewrite (Hfirst c eq_refl) in Hall. rewrite andb_false_r in Hall. discriminate. }
    unfold strip. rewrite Hl. reflexivity.
Qed.

(** X8.  On ASCII input, a player's name is the line typed without the
    whitespace around it, or the default name when nothing else was typed.
    So a name is never empty and never starts or ends with whitespace. *)
Theorem player_names (cards : list Card) (coin : bool) (w0 w1 : io) (g0 : Game) :
  ascii_input w0 ->
  setup cards coin w0 = Ok g0 w1 ->
  exists n1 n2 rest,
    stdin w0 = n1 :: n2 :: rest /\
    name (p1 g0) = (if all_space n1 then "Player 1" else strip n1) /\
    name (p2 g0) = (if all_space n2 then "Player 2" else strip n2) /\
    (exists pre post, n1 = pre +:+ strip n1 +:+ post /\
                      all_space pre = true /\ all_space post = true) /\
    (exists pre post, n2 = pre +:+ strip n2 +:+ post /\
                      all_space pre = true /\ all_space post = true) /\
    name (p1 g0) <> "" /\ name (p2 g0) <> "" /\
    trimmed (name (p1 g0)) /\ trimmed (name (p2 g0)).
Proof.
  intros _ Hs. apply setup_Ok in Hs as (n1 & n2 & rest & Hin & Hn1 & Hn2 & _).
  assert (Hname : forall n d,
            d <> "" -> trimmed d ->
            let nm := str_or (strip n) d in
            nm = (if all_space n then d else strip n) /\ nm <> "" /\ trimmed nm).
  { intros n d Hd Htd nm. subst nm.
    destruct (strip_spec n) as (_ & _ & _ & _ & _ & Ht).
    destruct (all_space n) eqn:Ha.
    - apply strip_blank in Ha. rewrite Ha. simpl. auto.
    - assert (Hne : strip n <> "").
      { intros E. apply strip_blank in E. congruence. }
      rewrite str_or_nonempty by exact Hne. auto. }
  assert (Htrim : forall d, d = "Player 1" \/ d = "Player 2" -> trimmed d).
  { intros d [-> | ->]; split; intros c [= <-]; reflexivity. }
  destruct (Hname n1 "Player 1" ltac:(discriminate) ltac:(auto)) as (E1 & N1 & T1).
  destruct (Hname n2 "Player 2" ltac:(discriminate) ltac:(auto)) as (E2 & N2 & T2).
  rewrite <- Hn1 in E1, N1, T1. rewrite <- Hn2 in E2, N2, T2.
  exists n1, n2, rest. split; [exact Hin|]. split; [exact E1|]. split; [exact E2|].
  split. { destruct (strip_spec n1) as (pre & post & ? & ? & ? & _). eauto. }
  split. { destruct (strip_spec n2) as (pre & post & ? & ? & ? & _). eauto. }
  auto.
Qed.

Lemma player_names_witness :
  exists g0 w1,
    setup Deck.unshuffled true (mkIO ["  Ann Lee "; "   "] []) = Ok g0 w1 /\
    name (p1 g0) = "Ann Lee" /\ name (p2 g0) = "Player 2".
Proof.
  eval_as E0 (setup Deck.unshuffled true (mkIO ["  Ann Lee "; "   "] [])).
  assert (Hascii : ascii_input (mkIO ["  Ann Lee "; "   "] []))
    by (apply (bool_decide_unpack _); vm_compute; exact I).
  destruct (player_names _ _ _ _ _ Hascii E0) as (n1 & n2 & rest & Hin & H1 & H2 & _).
  injection Hin as <- <- _.
  eexists _, _. split; [exact E0|]. split; [exact H1 | exact H2].
Defined.

(** ** The trick *)

Lemma list_remove_Some (x : Card) (l l' : list Card) :
  list_remove x l = Some l' ->
  exists l1 l2, l = l1 ++ x :: l2 /\ l' = l1 ++ l2 /\ x ∉ l1.
Proof.
  revert l'. induction l as [|y l IH]; intros l'; simpl; [discriminate|].
  destruct (decide (y = x)) as [->|Hne].
  - intros [= <-]. exists [], l. repeat split. apply not_elem_of_nil.
  - destruct (list_remove x l) as [l0|]; [|discriminate]. simpl. intros [= <-].
    destruct (IH l0 eq_refl) as (l1 & l2 & -> & -> & Hnin).
    exists (y :: l1), l2. repeat split.
    rewrite not_elem_of_cons. auto.
Qed.

Lemma list_remove_Permutation (x : Card) (l l' : list Card) :
  list_remove x l = Some l' -> l ≡ₚ x :: l' /\ length l = S (length l').
Proof.
  intros H. apply list_remove_Some in H as (l1 & l2 & -> & -> & _). split.
  - symmetry. apply Permutation_middle.
  - rewrite !length_app. simpl. lia.
Qed.

Lemma list_remove_elem (x : Card) (l : list Card) :
  x ∈ l -> is_Some (list_remove x l).
Proof.
  induction l as [|y l IH]; intros Hin; [apply elem_of_nil in Hin; destruct Hin|].
  simpl. destruct (decide (y = x)); [eauto|].
  apply elem_of_cons in Hin as [->|Hin]; [congruence|].
  destruct (IH Hin) as [l' ->]. simpl. eauto.
Qed.

Lemma other_involutive (i : pid) : other (other i) = i.
Proof. destruct i; reflexivity. Qed.

Lemma other_ne (i : pid) : other i <> i.
Proof. destruct i; discriminate. Qed.

Lemma play_trick_inv (g g' : Game) (w w' : io) :
  play_trick g w = Ok g' w' -> follower g = other (leader g) ->
  exists lead_card follow_card h1 h2 s,
    lead_card ∈ hand (player g (leader g)) /\
    follow_card ∈ followSelection_candidates (hand (player g (follower g)))
                                              (Card.suit lead_card) /\
    list_remove lead_card (hand (player g (leader g))) = Some h1 /\
    list_remove follow_card (hand (player g (follower g))) = Some h2 /\
    hand (player g' (leader g)) = h1 /\ hand (player g' (follower g)) = h2 /\
    leader g' = determine_winner (leader g) lead_card (follower g) follow_card /\
    follower g' = other (leader g') /\
    score_of g (leader g') = Some s /\
    score g' = <[name (player g (leader g')) := s + 1]> (score g).
Proof.
  unfold play_trick. intros H Hf. inv_io. subst.
  destruct g as [[n1 h1] [n2 h2] d sc l f dd rn]. simpl in Hf. subst f.
  destruct l; simpl in *;
    repeat match goal with
    | H : get_lead_card _ _ = Ok _ _ |- _ => apply get_lead_card_Ok in H as [H _]
    | H : get_follow_card _ _ _ = Ok _ _ |- _ => apply get_follow_card_Ok in H as [H _]
    end;
    simpl in *.
  all: match goal with
       | Hl : ?lc ∈ _, Hf : ?fc ∈ followSelection_candidates _ _,
         R1 : list_remove ?lc _ = Some ?a, R2 : list_remove ?fc _ = Some ?b,
         Hs : score_of _ ?win = Some ?s |- _ =>
           solve [ exists lc, fc, a, b, s;
                   repeat split; try assumption; try reflexivity;
                   destruct win; first [exact Hs | reflexivity] ]
       end.
Qed.

(** X9.  A trick takes the card led out of the leader's hand and the card
    followed out of the follower's hand and touches no other card; the card
    led is one of the leader's cards and the card followed is a candidate of
    the follow selection.  The winner that [determine_winner] gives for
    these two cards gets one point and leads the next round, the other
    player follows. *)
Theorem trick_spec (g g' : Game) (w w' : io) :
  play_trick g w = Ok g' w' -> follower g = other (leader g) ->
  exists lead_card follow_card s,
    lead_card ∈ hand (player g (leader g)) /\
    follow_card ∈ followSelection_candidates (hand (player g (follower g)))
                                              (Card.suit lead_card) /\
    hand (player g (leader g)) ≡ₚ lead_card :: hand (player g' (leader g)) /\
    hand (player g (follower g)) ≡ₚ follow_card :: hand (player g' (follower g)) /\
    leader g' = determine_winner (leader g) lead_card (follower g) follow_card /\
    follower g' = other (leader g') /\
    score_of g (leader g') = Some s /\
    score g' = <[name (player g (leader g')) := s + 1]> (score g) /\
    round_num g' = round_num g + 1 /\ deck g' = deck g /\
    deals_done g' = deals_done g.
Proof.
  intros H Hf. pose proof (play_trick_Ok _ _ _ _ H) as (Hr & Hdd & Hdk & _).
  apply play_trick_inv in H
    as (lc & fc & h1 & h2 & s & Hlc & Hfc & Hr1 & Hr2 & <- & <- & Hl & Hf' & Hs & Hsc);
    [|exact Hf].
  apply list_remove_Permutation in Hr1 as [Hp1 _].
  apply list_remove_Permutation in Hr2 as [Hp2 _].
  exists lc, fc, s. repeat split; assumption.
Qed.

Lemma trick_spec_witness :
  exists g' w' s,
    play_trick last_round (mkIO ["1"; "1"] []) = Ok g' w' /\
    leader g' = P1 /\ follower g' = P2 /\
    score_of last_round P1 = Some s /\ score_of g' P1 = Some (s + 1) /\
    hand (p1 g') = [] /\ hand (p2 g') = [].
Proof.
  eval_as E (play_trick last_round (mkIO ["1"; "1"] [])).
  destruct (trick_spec _ _ _ _ E eq_refl)
    as (lc & fc & s & _ & _ & _ & _ & _ & _ & Hs & Hsc & _).
  eexists _, _, s. split; [exact E|]. split; [reflexivity|]. split; [reflexivity|].
  split; [exact Hs|]. split; [|split; reflexivity].
  unfold score_of. rewrite Hsc. apply lookup_insert_eq.
Defined.

(** ** Counting tricks *)

Lemma boundary_scores (cards : list Card) (coin : bool) (w0 w1 w : io)
    (g0 g : Game) (n : nat) :
  setup cards coin w0 = Ok g0 w1 ->
  name (p1 g0) <> name (p2 g0) ->
  boundary g0 w1 n g w ->
  exists s1 s2,
    score_of g P1 = Some s1 /\ score_of g P2 = Some s2 /\
    0 <= s1 /\ 0 <= s2 /\ s1 + s2 = Z.of_nat n /\
    dom (score g) = {[ name (p1 g0); name (p2 g0) ]}.
Proof.
  intros Hs Hne Hb.
  apply setup_Ok in Hs as (_ & _ & _ & _ & _ & _ & Hsc & _).
  induction Hb as [|n g1 w2 g2 w3 Hb IH Ht Hbody].
  - exists 0, 0. unfold score_of. simpl. rewrite Hsc.
    rewrite lookup_insert_ne by congruence. rewrite !lookup_insert_eq.
    repeat split; try lia.
    rewrite !dom_insert_L, dom_empty_L, union_empty_r_L. apply union_comm_L.
  - destruct IH as (s1 & s2 & H1 & H2 & Hp1 & Hp2 & Hsum & Hdom).
    apply boundary_inv in Hb as (_ & Hn1 & Hn2 & _).
    apply round_body_frame in Hbody
      as (_ & Hn1' & Hn2' & (win & s & Hw & Hsc') & _).
    unfold score_of in *. simpl in H1, H2 |- *.
    rewrite Hn1', Hn2', Hsc'. destruct win; simpl in Hw |- *.
    + exists (s1 + 1), s2. rewrite lookup_insert_eq.
      rewrite lookup_insert_ne by congruence.
      assert (s = s1) as -> by congruence.
      repeat split; try assumption; try lia.
      rewrite dom_insert_L, Hdom, Hn1. apply subseteq_union_1_L, union_subseteq_l.
    + exists s1, (s2 + 1). rewrite lookup_insert_eq.
      rewrite lookup_insert_ne by congruence.
      assert (s = s2) as -> by congruence.
      repeat split; try assumption; try lia.
      rewrite dom_insert_L, Hdom, Hn2. apply subseteq_union_1_L, union_subseteq_r.
Qed.

(** X10.  On ASCII input and with two different names, the two scores are
    never negative and add up to the number of rounds played: every round
    gives one point to one player and leaves the other score as it is.  The
    score dict keeps exactly the two names as keys. *)
Theorem score_count (cards : list Card) (coin : bool) (w0 w1 w : io)
    (g0 g : Game) (n : nat) :
  ascii_input w0 ->
  setup cards coin w0 = Ok g0 w1 ->
  name (p1 g0) <> name (p2 g0) ->
  boundary g0 w1 n g w ->
  exists s1 s2,
    score_of g P1 = Some s1 /\ score_of g P2 = Some s2 /\
    0 <= s1 /\ 0 <= s2 /\ s1 + s2 = Z.of_nat n /\
    dom (score g) = {[ name (p1 g0); name (p2 g0) ]}.
Proof. intros _. apply boundary_scores. Qed.

Lemma score_count_witness :
  exists g0 w1 gf wf,
    setup Deck.unshuffled false (mkIO nine_seven_lines []) = Ok g0 w1 /\
    game_loop 16 g0 w1 = Some (Ok gf wf) /\
    exists s1 s2, score_of gf P1 = Some s1 /\ score_of gf P2 = Some s2 /\
                  s1 + s2 = 16.
Proof.
  run_game E0 E1 Deck.unshuffled false (mkIO nine_seven_lines []).
  pose proof (game_loop_boundary _ _ _ _ _ E1) as (n & Hn & Hb & _).
  pose proof (boundary_inv _ _ _ _ _ Hb) as (Hr & _).
  assert (n = 16%nat) as -> by (cbn [round_num] in Hr; lia).
  assert (Hascii : ascii_input (mkIO nine_seven_lines []))
    by (apply (bool_decide_unpack _); vm_compute; exact I).
  destruct (score_count _ _ _ _ _ _ _ _ Hascii E0 ltac:(discriminate) Hb)
    as (s1 & s2 & H1 & H2 & _ & _ & Hsum & _).
  eexists _, _, _, _. split; [exact E0|]. split; [exact E1|].
  exists s1, s2. split; [exact H1|]. split; [exact H2 | exact Hsum].
Defined.

(** ** The course of a game on a full deck *)

Lemma bind_Raise {A B} (c : IO A) (k : A -> IO B) (w : io) (e : exn) :
  bind c k w = Raise e <->
  c w = Raise e \/ exists a w1, c w = Ok a w1 /\ k a w1 = Raise e.
Proof.
  unfold bind. destruct (c w) as [a w1|e'].
  - split.
    + intros H. right. exists a, w1. auto.
    + intros [H|(a' & w' & E & H)]; [discriminate H|].
      injection E as <- <-. exact H.
  - split.
    + intros [= <-]. left. reflexivity.
    + intros [[= <-]|(a' & w' & E & _)]; [reflexivity | discriminate E].
Qed.

Lemma orRaise_Raise {A} (e e' : exn) (o : option A) (w : io) :
  orRaise e o w = Raise e' <-> o = None /\ e' = e.
Proof.
  destruct o; simpl; unfold ret, raise.
  - split; [discriminate | intros [? _]; discriminate].
  - split; [intros [= <-]; auto | intros [_ ->]; reflexivity].
Qed.

Lemma candidates_subset (h : list Card) (s : string) (c : Card) :
  c ∈ followSelection_candidates h s -> c ∈ h.
Proof.
  unfold followSelection_candidates.
  destruct (decide (Exists (fun c => Card.suit c = s) h)); [|auto].
  intros H. apply list_elem_of_filter in H as [_ H]. exact H.
Qed.

Lemma get_lead_card_Raise (p : Player) (w : io) (e : exn) :
  get_lead_card p w = Raise e -> input_fault (stdin w) e.
Proof.
  unfold get_lead_card. intros H. apply bind_Raise in H as [H|(? & ? & Hp & H)].
  - discriminate H.
  - apply print_Ok in Hp. subst. unfold prompt_card_choice in H.
    apply prompt_loop_Raise in H. exact H.
Qed.

Lemma get_follow_card_Raise (p : Player) (s : string) (w : io) (e : exn) :
  get_follow_card p s w = Raise e -> input_fault (stdin w) e.
Proof.
  destruct (get_follow_card_candidates p s) as (header & _ & ->).
  intros H. apply bind_Raise in H as [H|(? & ? & Hp & H)].
  - discriminate H.
  - apply print_Ok in Hp. subst. unfold prompt_card_choice in H.
    apply prompt_loop_Raise in H. exact H.
Qed.

(** The commands only consume input: the lines left after a command are
    the last of the lines left before it. *)
Lemma get_lead_card_stdin (p : Player) (c : Card) (w w' : io) :
  get_lead_card p w = Ok c w' -> stdin w' `suffix_of` stdin w.
Proof.
  unfold get_lead_card. intros H. inv_io. subst.
  unfold prompt_card_choice in H. apply prompt_loop_stdin in H. exact H.
Qed.

Lemma get_follow_card_stdin (p : Player) (s : string) (c : Card) (w w' : io) :
  get_follow_card p s w = Ok c w' -> stdin w' `suffix_of` stdin w.
Proof.
  destruct (get_follow_card_candidates p s) as (header & _ & ->).
  intros H. inv_io. subst.
  unfold prompt_card_choice in H. apply prompt_loop_stdin in H. exact H.
Qed.

Lemma play_trick_stdin (g g' : Game) (w w' : io) :
  play_trick g w = Ok g' w' -> stdin w' `suffix_of` stdin w.
Proof.
  unfold play_trick. intros H. inv_io. subst.
  repeat match goal with
  | H : get_lead_card _ _ = Ok _ _ |- _ => apply get_lead_card_stdin in H
  | H : get_follow_card _ _ _ = Ok _ _ |- _ => apply get_follow_card_stdin in H
  end.
  simpl in *. etrans; eassumption.
Qed.

Lemma reveal_stdin (g g' : Game) (w w' : io) :
  reveal g w = Ok g' w' -> stdin w' = stdin w.
Proof.
  unfold reveal. destruct (Deck.draw (deck g)) as [[c|] cards]; intros H;
    inv_io; subst; reflexivity.
Qed.

Lemma deal_additional_stdin (g g' : Game) (w w' : io) :
  deal_additional g w = Ok g' w' -> stdin w' = stdin w.
Proof.
  unfold deal_additional. destruct (deal_due g); intros H.
  - inv_io.
    repeat match goal with
    | H : (let '(_, _) := ?p in _) _ = Ok _ _ |- _ => destruct p
    end.
    inv_io. subst. reflexivity.
  - inv_io. subst. reflexivity.
Qed.

Lemma show_score_stdin (g : Game) (u : unit) (w w' : io) :
  show_score g w = Ok u w' -> stdin w' = stdin w.
Proof. unfold show_score. intros H. inv_io. subst. reflexivity. Qed.

Lemma round_body_stdin (g g' : Game) (w w' : io) :
  round_body g w = Ok g' w' -> stdin w' `suffix_of` stdin w.
Proof.
  intros H. apply round_body_Ok in H as (gc & wc & w3 & u & Hpre & Hdeal & Hshow).
  inv_io.
  match goal with H : play_trick _ _ = _ |- _ => apply play_trick_stdin in H end.
  apply reveal_stdin in Hpre. apply deal_additional_stdin in Hdeal.
  apply show_score_stdin in Hshow. congruence.
Qed.

Lemma setup_stdin (cards : list Card) (coin : bool) (w0 w1 : io) (g0 : Game) :
  setup cards coin w0 = Ok g0 w1 -> stdin w1 = drop 2 (stdin w0).
Proof.
  unfold setup. intros H. inv_io.
  repeat match goal with
  | H : (let '(_, _) := ?p in _) _ = Ok _ _ |- _ => destruct p
  end.
  inv_io.
  repeat match goal with
  | H : input _ _ = Ok _ _ |- _ =>
      unfold input in H;
      match type of H with
      | match stdin ?w with _ => _ end = _ =>
          destruct (stdin w) as [|? ?] eqn:?; [discriminate H|];
          injection H as ? ?
      end
  end.
  subst. simpl in *. subst.
  match goal with E : stdin w0 = _ |- _ => rewrite E end. reflexivity.
Qed.

Lemma boundary_stdin (g0 g : Game) (w0 w : io) (n : nat) :
  boundary g0 w0 n g w -> stdin w `suffix_of` stdin w0.
Proof.
  induction 1 as [|n g w g' w' Hb IH Ht Hr]; [reflexivity|].
  etrans; [|exact IH]. eapply round_body_stdin. exact Hr.
Qed.

(** Takes a failed run of a command apart, step by step. *)
Ltac inv_raise H :=
  apply bind_Raise in H;
  destruct H as [H|(? & ? & ? & H)].

Lemma play_trick_Raise (g : Game) (w : io) (e : exn) :
  follower g = other (leader g) ->
  is_Some (score_of g P1) -> is_Some (score_of g P2) ->
  play_trick g w = Raise e -> input_fault (stdin w) e.
Proof.
  intros Hf [s1 H1] [s2 H2] H. unfold play_trick in H.
  destruct g as [[n1 h1] [n2 h2] d sc l f dd rn]. simpl in Hf. subst f.
  unfold score_of in H1, H2. simpl in H1, H2.
  inv_raise H; [discriminate H|].
  inv_io. subst.
  inv_raise H; [apply get_lead_card_Raise in H; exact H|].
  match goal with Hl : get_lead_card _ _ = Ok _ _ |- _ =>
    pose proof (get_lead_card_stdin _ _ _ _ Hl) as Hsuf;
    apply get_lead_card_Ok in Hl as [Hl _] end.
  cbn [stdin] in Hsuf.
  inv_raise H.
  { apply orRaise_Raise in H as [H _].
    match goal with Hl : _ ∈ _ |- _ => apply list_remove_elem in Hl as [? Hl] end.
    congruence. }
  inv_io. inv_raise H; [discriminate H|].
  inv_io. subst.
  inv_raise H.
  { apply get_follow_card_Raise in H. cbn [stdin] in H.
    eapply input_fault_suffix; [exact Hsuf | exact H]. }
  match goal with Hl : get_follow_card _ _ _ = Ok _ _ |- _ =>
    apply get_follow_card_Ok in Hl as [Hl _]; apply candidates_subset in Hl end.
  inv_raise H.
  { apply orRaise_Raise in H as [H _].
    match goal with Hl : _ ∈ hand _ |- _ => apply list_remove_elem in Hl as [? Hl] end.
    congruence. }
  inv_io. inv_raise H; [discriminate H|].
  inv_raise H; [discriminate H|].
  inv_raise H; [|discriminate H].
  apply orRaise_Raise in H as [H _]. exfalso.
  unfold score_of in H.
  destruct l; simpl in H;
    match type of H with
    | _ !! name (player _ ?win) = None => destruct win; simpl in H; congruence
    end.
Qed.

Lemma deal_enough (n : nat) (cards : list Card) :
  (n <= length cards)%nat ->
  exists dealt rest,
    Deck.deal n cards = Some (dealt, rest) /\
    length dealt = n /\ length rest = (length cards - n)%nat.
Proof.
  intros Hle.
  exists (reverse (drop (length cards - n) cards)), (take (length cards - n) cards).
  split; [|split].
  - apply deal_Some. split.
    + rewrite reverse_involutive, take_drop. reflexivity.
    + rewrite length_reverse, length_drop. lia.
  - rewrite length_reverse, length_drop. lia.
  - rewrite length_take. lia.
Qed.

Lemma deal_short (n : nat) (cards : list Card) :
  Deck.deal n cards = None -> (length cards < n)%nat.
Proof.
  intros H. destruct (le_lt_dec n (length cards)) as [Hle|Hlt]; [|exact Hlt].
  destruct (deal_enough n cards Hle) as (? & ? & E & _). congruence.
Qed.

Lemma deal_additional_Raise (g : Game) (w : io) (e : exn) :
  deal_additional g w = Raise e ->
  deal_due g = true /\ (length (deck g) < 8)%nat /\ e = IndexError.
Proof.
  unfold deal_additional. destruct (deal_due g); [|discriminate].
  intros H. split; [reflexivity|].
  inv_raise H; [discriminate H|].
  inv_raise H.
  { apply orRaise_Raise in H as [H ->]. apply deal_short in H. split; [lia|reflexivity]. }
  inv_io. subst.
  match goal with Hd : Deck.deal 4 (deck g) = Some ?p |- _ =>
    destruct p as [cs d]; simpl in H; apply deal_Some in Hd as [Hdeck Hcs] end.
  inv_raise H;
    [|repeat match goal with p : (_ * _)%type |- _ => destruct p end; discriminate H].
  apply orRaise_Raise in H as [H ->]. apply deal_short in H.
  rewrite Hdeck, length_app, length_reverse. split; [lia|reflexivity].
Qed.

Lemma show_score_Raise (g : Game) (w : io) (e : exn) :
  is_Some (score_of g P1) -> is_Some (score_of g P2) ->
  show_score g w = Raise e -> False.
Proof.
  intros [s1 H1] [s2 H2]. unfold show_score, bind. rewrite H1, H2. simpl.
  discriminate.
Qed.

Lemma draw_length (cards : list Card) :
  length (snd (Deck.draw cards)) = (length cards - 1)%nat.
Proof.
  destruct cards as [|c0 cards] using rev_ind; [reflexivity|].
  destruct (draw_nonempty (cards ++ [c0])) as (c & rest & E & ->).
  { destruct cards; discriminate. }
  apply app_inj_tail in E as [<- _]. rewrite length_app. simpl. lia.
Qed.

Lemma deal_additional_roles (g g' : Game) (w w' : io) :
  deal_additional g w = Ok g' w' ->
  leader g' = leader g /\ follower g' = follower g.
Proof.
  unfold deal_additional. destruct (deal_due g); intros H.
  - inv_io.
    repeat match goal with
    | H : (let '(_, _) := ?p in _) _ = Ok _ _ |- _ => destruct p
    end.
    inv_io. subst. auto.
  - inv_io. subst. auto.
Qed.

Lemma insert_is_Some_keep (m : gmap string Z) (k k' : string) (v : Z) :
  is_Some (m !! k') -> is_Some (<[k := v]> m !! k').
Proof.
  intros H. rewrite lookup_insert_is_Some.
  destruct (decide (k = k')); auto.
Qed.

(** Replaces the schedule after [n] rounds, for a numeral [n], by its
    numbers. *)
Ltac sched n :=
  let a := eval vm_compute in (deals_after n) in
  let b := eval vm_compute in (hand_after n) in
  let c := eval vm_compute in (deck_after n) in
  change (deals_after n) with a in *;
  change (hand_after n) with b in *;
  change (deck_after n) with c in *.

(** One round takes a state that is on schedule to the next one. *)
Lemma round_on_schedule (n : nat) (g g' : Game) (w w' : io) :
  on_schedule n g -> (n < 16)%nat ->
  round_body g w = Ok g' w' -> on_schedule (S n) g'.
Proof.
  intros (Hr & Hdd & Hl1 & Hl2 & Hdk & Hf & Hs1 & Hs2) Hn H.
  apply round_body_Ok in H as (gc & wc & w3 & u & Hpre & Hdeal & _).
  inv_io.
  match goal with H : play_trick _ _ = _ |- _ =>
    pose proof (play_trick_Ok _ _ _ _ H) as (Hr1 & Hdd1 & Hdk1 & Hn1 & Hn2 & _);
    apply play_trick_inv in H
      as (lc & fc & h1 & h2 & s & _ & _ & Hrm1 & Hrm2 & Hh1 & Hh2 & _ & Hf1 & _ & Hsc);
      [|exact Hf]
  end.
  apply list_remove_Permutation in Hrm1 as [_ Hrm1].
  apply list_remove_Permutation in Hrm2 as [_ Hrm2].
  apply reveal_Ok in Hpre as [-> _].
  match type of Hdeal with context [set_deck _ ?g1] => rename g1 into gt end.
  assert (Hc : S (length (hand (p1 gt))) = hand_after n /\
               S (length (hand (p2 gt))) = hand_after n).
  { rewrite Hf in Hrm2, Hh2. subst h1 h2.
    destruct (leader g); simpl in *; split; congruence. }
  destruct Hc as [Hc1 Hc2].
  assert (Hsome : is_Some (score_of gt P1) /\ is_Some (score_of gt P2)).
  { unfold score_of in *. simpl in *. rewrite Hn1, Hn2, Hsc.
    split; apply insert_is_Some_keep; assumption. }
  destruct Hsome as [Hs1' Hs2'].
  assert (Hdraw : length (snd (Deck.draw (deck gt))) = (deck_after n - 1)%nat)
    by (rewrite draw_length, Hdk1, Hdk; reflexivity).
  rewrite Hdd in Hdd1. rewrite Hr in Hr1.
  clear Hrm1 Hrm2 Hh1 Hh2 Hsc Hs1 Hs2 Hl1 Hl2 Hdk Hdk1 Hn1 Hn2 h1 h2 lc fc s Hr Hdd Hf.
  pose proof (deal_additional_roles _ _ _ _ Hdeal) as [Hlead Hfol].
  apply deal_additional_Ok in Hdeal
    as [(Hdue & (cs1 & cs2 & d1 & Hd1 & Hd2 & Hh1 & Hh2) & Hdd' & _ & Hr' & Hsc' & Hm1 & Hm2)
       |(Hdue & -> & _)].
  - apply deal_due_true in Hdue as (Hq1 & Hq2 & Hq3).
    apply deal_Some in Hd1 as [Hd1 Hlc1]. apply deal_Some in Hd2 as [Hd2 Hlc2].
    change (deck (set_deck ?x _)) with x in Hd1.
    assert (Hlen : (deck_after n - 1)%nat = (length (deck g') + 8)%nat).
    { rewrite <- Hdraw, Hd1, Hd2, !length_app, !length_reverse. lia. }
    simpl in Hq1, Hq2, Hq3, Hr', Hdd', Hlead, Hfol, Hsc', Hm1, Hm2, Hh1, Hh2.
    assert (Hg1 : length (hand (p1 g')) = 8%nat) by (rewrite Hh1, length_app; lia).
    assert (Hg2 : length (hand (p2 g')) = 8%nat) by (rewrite Hh2, length_app; lia).
    unfold on_schedule, score_of in *. cbn [player] in *.
    rewrite Hm1, Hm2, Hsc', Hlead, Hfol, Hdd', Hr'.
    rewrite Hq1 in Hc1. rewrite Hdd1 in Hq3 |- *. rewrite Hr1.
    clear - Hn Hc1 Hq3 Hlen Hg1 Hg2 Hf1 Hs1' Hs2'.
    do 16 (destruct n as [|n];
           [ match type of Hc1 with _ = hand_after ?k => sched k; sched (S k) end;
             first [ discriminate Hc1 | lia
                   | repeat split; try assumption; lia ] |]).
    lia.
  - apply not_true_iff_false in Hdue.
    rewrite deal_due_true in Hdue.
    unfold on_schedule, score_of in *. cbn [player] in *.
    change (deck (set_deck ?x _)) with x.
    simpl in Hdue |- *. rewrite Hdd1 in Hdue |- *. rewrite Hr1, Hdraw.
    clear - Hn Hc1 Hc2 Hdue Hf1 Hs1' Hs2'.
    do 16 (destruct n as [|n];
           [ match type of Hc1 with _ = hand_after ?k => sched k; sched (S k) end;
             repeat split; try assumption; lia |]).
    lia.
Qed.

Lemma setup_on_schedule (cards : list Card) (coin : bool) (w0 w1 : io) (g0 : Game) :
  length cards = 48%nat -> setup cards coin w0 = Ok g0 w1 -> on_schedule 0 g0.
Proof.
  intros Hlen Hs.
  apply setup_Ok in Hs
    as (n1 & n2 & rest & _ & _ & _ & Hsc & _ & Hf & Hdd & Hr & (d & Hd1 & Hd2) & _).
  apply deal_Some in Hd1 as [Hd1 Hl1]. apply deal_Some in Hd2 as [Hd2 Hl2].
  assert (Hdk : length (deck g0) = 32%nat).
  { rewrite Hd1, Hd2, !length_app, !length_reverse in Hlen. lia. }
  unfold on_schedule, score_of. cbn [player]. rewrite Hsc.
  repeat split; try assumption.
  - rewrite lookup_insert_is_Some.
    destruct (decide (name (p2 g0) = name (p1 g0))); auto.
    right. split; [assumption|]. rewrite lookup_insert_eq. eauto.
  - rewrite lookup_insert_eq. eauto.
Qed.

Lemma boundary_on_schedule (g0 g : Game) (w0 w : io) (n : nat) :
  on_schedule 0 g0 -> boundary g0 w0 n g w -> on_schedule n g /\ (n <= 16)%nat.
Proof.
  intros H0. induction 1 as [|n g1 w1 g2 w2 _ IH Ht Hb]; [split; [exact H0 | lia]|].
  destruct IH as [IH _].
  apply loop_test_true in Ht as [Hr _].
  assert (Hn : (n < 16)%nat) by (destruct IH as (Hrn & _); lia).
  split; [|lia]. eapply round_on_schedule; eassumption.
Qed.

Lemma round_body_Raise (n : nat) (g : Game) (w : io) (e : exn) :
  on_schedule n g -> (n < 16)%nat ->
  round_body g w = Raise e -> input_fault (stdin w) e.
Proof.
  intros Hsch Hn H.
  pose proof Hsch as (Hr & Hdd & Hl1 & Hl2 & Hdk & Hf & Hs1 & Hs2).
  unfold round_body in H.
  inv_raise H; [eapply play_trick_Raise; eassumption|].
  match goal with Hp : play_trick _ _ = Ok ?gt ?wt |- _ =>
    rename gt into g1; rename wt into wa; rename Hp into Hplay end.
  destruct (reveal g1 wa) as [g2 wb|e'] eqn:Hrev.
  2:{ unfold reveal in Hrev. destruct (Deck.draw (deck g1)) as [[c|] cards];
      discriminate Hrev. }
  inv_raise H; [congruence|].
  match goal with Hp : reveal _ _ = Ok ?gt ?wt |- _ =>
    rewrite Hrev in Hp; injection Hp as <- <- end.
  destruct (deal_additional g2 wb) as [g3 wc|e'] eqn:Hdeal.
  - (* the round reaches the score line *)
    inv_raise H; [congruence|].
    match goal with Hp : deal_additional _ _ = Ok ?gt ?wt |- _ =>
      rewrite Hdeal in Hp; injection Hp as <- <- end.
    inv_raise H; [|discriminate H].
    exfalso. eapply (show_score_Raise g3); [| |exact H].
    all: pose proof (play_trick_Ok _ _ _ _ Hplay) as (_ & _ & _ & Hn1 & Hn2 & _ & (win & s & Hw & Hsc));
      apply reveal_Ok in Hrev as [-> _];
      apply deal_additional_Ok in Hdeal
        as [(_ & _ & _ & _ & _ & Hsc' & Hm1 & Hm2)|(_ & -> & _)];
      unfold score_of in *; cbn [player] in *; simpl;
      try rewrite Hm1; try rewrite Hm2; try rewrite Hsc'; simpl;
      rewrite ?Hn1, ?Hn2, Hsc; apply insert_is_Some_keep; assumption.
  - (* the additional deal cannot fail *)
    exfalso.
    apply deal_additional_Raise in Hdeal as (Hdue & Hlt & _).
    apply deal_due_true in Hdue as (Hq1 & Hq2 & Hq3).
    pose proof (play_trick_Ok _ _ _ _ Hplay) as (_ & Hdd1 & Hdk1 & _).
    apply play_trick_inv in Hplay
      as (lc & fc & h1 & h2 & s & _ & _ & Hrm1 & Hrm2 & Hh1 & Hh2 & _);
      [|exact Hf].
    apply list_remove_Permutation in Hrm1 as [_ Hrm1].
    apply list_remove_Permutation in Hrm2 as [_ Hrm2].
    apply reveal_Ok in Hrev as [-> _].
    change (deck (set_deck ?x _)) with x in Hlt. rewrite draw_length in Hlt.
    simpl in Hq1, Hq2, Hq3.
    assert (Hc1 : S (length (hand (p1 g1))) = hand_after n).
    { rewrite Hf in Hrm2, Hh2. subst h1 h2.
      destruct (leader g); simpl in *; congruence. }
    rewrite Hq1 in Hc1. rewrite Hdk1, Hdk in Hlt. rewrite Hdd1, Hdd in Hq3.
    clear - Hn Hc1 Hq3 Hlt.
    do 16 (destruct n as [|n];
           [ match type of Hc1 with _ = hand_after ?k => sched k end;
             first [ discriminate Hc1 | lia ] |]).
    lia.
Qed.

Lemma setup_Raise (cards : list Card) (coin : bool) (w : io) (e : exn) :
  (16 <= length cards)%nat -> setup cards coin w = Raise e -> e = EOFError.
Proof.
  intros Hlen H. unfold setup in H.
  destruct (deal_enough 8 cards ltac:(lia)) as (h1 & d1 & Hd1 & _ & Hl1).
  destruct (deal_enough 8 d1 ltac:(lia)) as (h2 & d2 & Hd2 & _).
  inv_raise H; [discriminate H|].
  assert (Hinput : forall o w' e', input o w' = Raise e' -> e' = EOFError).
  { intros o w' e'. unfold input. destruct (stdin w'); [|discriminate].
    intros [= <-]. reflexivity. }
  inv_raise H; [eapply Hinput; exact H|].
  inv_raise H; [eapply Hinput; exact H|].
  rewrite Hd1 in H. inv_raise H; [discriminate H|].
  inv_io. match goal with E : Some _ = Some _ |- _ => injection E as <- end.
  rewrite Hd2 in H. inv_raise H; [discriminate H|].
  inv_io. match goal with E : Some _ = Some _ |- _ => injection E as <- end.
  destruct coin; simpl in H; inv_raise H; discriminate H.
Qed.

Lemma loop_test_total (g : Game) (w : io) :
  is_Some (score_of g P1) -> is_Some (score_of g P2) ->
  exists b, loop_test g w = Ok b w.
Proof.
  intros [s1 H1] [s2 H2]. unfold loop_test, bind, ret. rewrite H1, H2. simpl.
  case_bool_decide; eauto.
Qed.

Lemma game_loop_Raise (fuel n : nat) (g : Game) (w : io) (e : exn) :
  on_schedule n g -> game_loop fuel g w = Some (Raise e) ->
  input_fault (stdin w) e.
Proof.
  revert n g w. induction fuel as [|fuel IH]; intros n g w Hsch; simpl;
    pose proof Hsch as (Hr & _ & _ & _ & _ & _ & Hs1 & Hs2);
    destruct (loop_test_total g w Hs1 Hs2) as [b Ht]; rewrite Ht;
    destruct b; try discriminate.
  destruct (round_body g w) as [g1 w1|e'] eqn:Hb.
  - apply loop_test_true in Ht as [Hlt _]. intros H.
    apply (input_fault_suffix (stdin w1)); [eapply round_body_stdin; exact Hb|].
    apply IH with (n := S n) (g := g1); [|exact H].
    eapply round_on_schedule; [exact Hsch|lia|exact Hb].
  - intros [= <-]. apply loop_test_true in Ht as [Hlt _].
    eapply round_body_Raise; [exact Hsch|lia|exact Hb].
Qed.

Lemma game_end_total (g : Game) (w : io) :
  is_Some (score_of g P1) -> is_Some (score_of g P2) ->
  exists w', game_end g w = Ok tt w'.
Proof.
  intros [s1 H1] [s2 H2]. unfold game_end, bind, print. rewrite H1, H2. simpl.
  repeat (case_bool_decide; simpl; eauto);
    destruct (bool_decide _); simpl; eauto.
Qed.

(** X11.  On a full deck the game keeps to one schedule: after [n] rounds
    the additional deals made are those after rounds 4 and 8, both hands
    hold the same number of cards, and the deck has lost one card for each
    round and 8 for each additional deal.  So every round starts with at
    least one card in each hand and in the deck, and after round 16 both
    hands and the deck are empty. *)
Theorem full_deck_schedule (cards : list Card) (coin : bool) (w0 w1 w : io)
    (g0 g : Game) (n : nat) :
  Deck.shuffled cards ->
  setup cards coin w0 = Ok g0 w1 -> boundary g0 w1 n g w ->
  (n <= 16)%nat /\
  deals_done g = Z.of_nat (deals_after n) /\
  length (hand (p1 g)) = hand_after n /\ length (hand (p2 g)) = hand_after n /\
  length (deck g) = deck_after n /\
  follower g = other (leader g) /\
  ((n < 16)%nat -> (1 <= hand_after n <= 8)%nat /\ (1 <= deck_after n)%nat) /\
  (n = 16%nat -> hand (p1 g) = [] /\ hand (p2 g) = [] /\ deck g = []).
Proof.
  intros Hsh Hs Hb. apply shuffled_NoDup in Hsh as [_ Hlen].
  pose proof (setup_on_schedule _ _ _ _ _ Hlen Hs) as H0.
  destruct (boundary_on_schedule _ _ _ _ _ H0 Hb)
    as [(_ & Hdd & Hl1 & Hl2 & Hdk & Hf & _) Hn].
  repeat split; try assumption.
  - clear - H. do 16 (destruct n as [|n]; [vm_compute; lia|]). lia.
  - clear - H. do 16 (destruct n as [|n]; [vm_compute; lia|]). lia.
  - clear - H. do 16 (destruct n as [|n]; [vm_compute; lia|]). lia.
  - subst n. destruct (hand (p1 g)); [reflexivity | discriminate Hl1].
  - subst n. destruct (hand (p2 g)); [reflexivity | discriminate Hl2].
  - subst n. destruct (deck g); [reflexivity | discriminate Hdk].
Qed.

Lemma full_deck_schedule_witness :
  exists g0 w1 gf wf,
    setup Deck.unshuffled false (mkIO nine_seven_lines []) = Ok g0 w1 /\
    game_loop 16 g0 w1 = Some (Ok gf wf) /\
    deals_done gf = 2 /\ hand (p1 gf) = [] /\ hand (p2 gf) = [] /\ deck gf = [].
Proof.
  run_game E0 E1 Deck.unshuffled false (mkIO nine_seven_lines []).
  pose proof (game_loop_boundary _ _ _ _ _ E1) as (n & Hn & Hb & _).
  pose proof (boundary_inv _ _ _ _ _ Hb) as (Hr & _).
  assert (n = 16%nat) as -> by (cbn [round_num] in Hr; lia).
  destruct (full_deck_schedule _ _ _ _ _ _ _ _ unshuffled_shuffled E0 Hb)
    as (_ & Hdd & _ & _ & _ & _ & _ & Hend).
  destruct (Hend eq_refl) as (H1 & H2 & H3).
  eexists _, _, _, _. split; [exact E0|]. split; [exact E1|].
  split; [exact Hdd|]. split; [exact H1|]. split; [exact H2 | exact H3].
Defined.

(** X12.  A game on a full deck and ASCII input can only fail on its
    input: [main] raises no IndexError from the deck, no ValueError from a
    hand, no KeyError from the scores.  The exceptions are the EOFError of
    [input], when the lines run out, and the ValueError of [int], when one
    of the lines after the two names has more than [int_max_str_digits]
    digits; so with no line longer than that, the only exception is
    EOFError. *)
Theorem main_exceptions (fuel : nat) (cards : list Card) (coin : bool) (w : io)
    (e : exn) :
  Deck.shuffled cards -> ascii_input w ->
  main fuel cards coin w = Some (Raise e) ->
  (e = EOFError \/ (e = ValueError /\ Exists too_long (drop 2 (stdin w)))) /\
  (short_input w -> e = EOFError).
Proof.
  intros Hsh _ Hm.
  assert (Hf : input_fault (drop 2 (stdin w)) e).
  { apply shuffled_NoDup in Hsh as [_ Hlen]. unfold main in Hm.
    destruct (setup cards coin w) as [g0 w1|e'] eqn:Hs.
    - pose proof (setup_on_schedule _ _ _ _ _ Hlen Hs) as H0.
      rewrite <- (setup_stdin _ _ _ _ _ Hs).
      destruct (game_loop fuel g0 w1) as [[gf wf|e']|] eqn:Hl; [| |discriminate].
      + apply game_loop_boundary in Hl as (n & _ & Hb & _).
        destruct (boundary_on_schedule _ _ _ _ _ H0 Hb)
          as [(_ & _ & _ & _ & _ & _ & Hs1 & Hs2) _].
        destruct (game_end_total gf wf Hs1 Hs2) as [w' E].
        rewrite E in Hm. discriminate.
      + injection Hm as <-. eapply game_loop_Raise; eassumption.
    - injection Hm as <-. left. eapply setup_Raise; [|exact Hs]. lia. }
  split; [exact Hf|].
  intros Hshort. apply (input_fault_short (drop 2 (stdin w))); [|exact Hf].
  apply Forall_drop. exact Hshort.
Qed.

Lemma main_exceptions_witness :
  exists e,
    main 16 Deck.unshuffled true (mkIO ["A"; "B"; "1"; "x"] []) = Some (Raise e) /\
    e = EOFError.
Proof.
  eval_as E (main 16 Deck.unshuffled true (mkIO ["A"; "B"; "1"; "x"] [])).
  assert (Hascii : ascii_input (mkIO ["A"; "B"; "1"; "x"] []))
    by (apply (bool_decide_unpack _); vm_compute; exact I).
  assert (Hshort : short_input (mkIO ["A"; "B"; "1"; "x"] []))
    by (apply (bool_decide_unpack _); vm_compute; exact I).
  eexists. split; [exact E|].
  exact (proj2 (main_exceptions _ _ _ _ _ unshuffled_shuffled Hascii E) Hshort).
Defined.

(** ** Playing a game to its end *)













(** ** Where the cards are *)

Lemma discarded_app (l1 l2 : list Output) :
  discarded (l1 ++ l2) = discarded l1 ++ discarded l2.
Proof. unfold discarded. apply bind_app. Qed.

Lemma discarded_snoc (l : list Output) (o : Output) :
  discarded (l ++ [o]) = discarded l ++ gone o.
Proof.
  rewrite discarded_app. unfold discarded at 2. simpl. rewrite app_nil_r. reflexivity.
Qed.

Lemma discarded_choices (start : Z) (l : list Card) :
  discarded ((fun '(idx, card) => OutChoice idx card) <$> enumerate start l) = [].
Proof.
  revert start. induction l as [|c l IH]; intros start; [reflexivity|].
  cbn [enumerate]. rewrite fmap_cons.
  change (discarded (?x :: ?l')) with (gone x ++ discarded l').
  rewrite IH. reflexivity.
Qed.

Lemma prompt_loop_discarded (p : Player) (vc : list Card) (lines : list string)
    (out : list Output) (c : Card) (w' : io) :
  prompt_loop p vc lines out = Ok c w' -> discarded (stdout w') = discarded out.
Proof.
  revert out. induction lines as [|choice rest IH]; intros out; [discriminate|].
  rewrite prompt_loop_cons. cbv zeta.
  assert (Hmenu : discarded (menu vc) = []) by apply discarded_choices.
  assert (Hagain :
    prompt_loop p vc rest
      (out ++ menu vc ++ [OutAskCard (name p) (length vc); OutInvalid]) = Ok c w' ->
    discarded (stdout w') = discarded out).
  { intros H. apply IH in H as ->.
    rewrite !discarded_app, Hmenu. simpl. rewrite app_nil_r. reflexivity. }
  destruct (isdigit choice); [|exact Hagain].
  destruct (int choice) as [v|]; [|discriminate].
  case_bool_decide; [|exact Hagain].
  destruct (vc !! Z.to_nat (v - 1)); [|discriminate].
  intros [= _ <-]. simpl.
  rewrite !discarded_app, Hmenu. simpl. rewrite app_nil_r. reflexivity.
Qed.

Lemma get_lead_card_discarded (p : Player) (c : Card) (w w' : io) :
  get_lead_card p w = Ok c w' -> discarded (stdout w') = discarded (stdout w).
Proof.
  unfold get_lead_card. intros H. inv_io. subst.
  unfold prompt_card_choice in H. apply prompt_loop_discarded in H as ->.
  simpl. rewrite discarded_snoc. apply app_nil_r.
Qed.

Lemma get_follow_card_discarded (p : Player) (s : string) (c : Card) (w w' : io) :
  get_follow_card p s w = Ok c w' -> discarded (stdout w') = discarded (stdout w).
Proof.
  unfold get_follow_card.
  destruct (filter (fun c => Card.suit c = s) (hand p)); intros H; inv_io; subst;
    unfold prompt_card_choice in H; apply prompt_loop_discarded in H as ->;
    simpl; rewrite discarded_snoc; apply app_nil_r.
Qed.

(** The trick moves the card led and the card followed from the hands to
    the terminal. *)
Lemma play_trick_cards (g g' : Game) (w w' : io) :
  play_trick g w = Ok g' w' -> follower g = other (leader g) ->
  exists lead_card follow_card,
    hand (p1 g) ++ hand (p2 g) ≡ₚ
      lead_card :: follow_card :: hand (p1 g') ++ hand (p2 g') /\
    deck g' = deck g /\
    discarded (stdout w') = discarded (stdout w) ++ [lead_card; follow_card] /\
    follower g' = other (leader g').
Proof.
  unfold play_trick. intros H Hf. inv_io. subst.
  destruct g as [[n1 h1] [n2 h2] d sc l f dd rn]. simpl in Hf. subst f.
  destruct l; simpl in *;
    repeat match goal with
    | H : get_lead_card _ _ = Ok _ _ |- _ => apply get_lead_card_discarded in H
    | H : get_follow_card _ _ _ = Ok _ _ |- _ => apply get_follow_card_discarded in H
    | H : list_remove _ _ = Some _ |- _ => apply list_remove_Permutation in H as [H _]
    end;
    simpl in *.
  all: match goal with
       | R1 : _ ≡ₚ ?lc :: _, R2 : _ ≡ₚ ?fc :: _ |- _ =>
           first [ exists lc, fc; split; [rewrite R1, R2; solve_Permutation|]
                 | exists fc, lc; split; [rewrite R1, R2; solve_Permutation|] ]
       end.
  all: split; [reflexivity|].
  all: split; [|reflexivity].
  all: rewrite !discarded_snoc;
       repeat match goal with
       | H : discarded (stdout ?a) = _ |- context [discarded (stdout ?a)] =>
           rewrite H; rewrite ?discarded_snoc
       end; simpl; rewrite ?app_nil_r, <- ?app_assoc; reflexivity.
Qed.

(** The reveal moves the last card of the deck, when there is one, from the
    deck to the terminal. *)
Lemma reveal_cards (g g' : Game) (w w' : io) :
  reveal g w = Ok g' w' ->
  exists revealed,
    revealed = option_list (fst (Deck.draw (deck g))) /\
    deck g = deck g' ++ revealed /\
    discarded (stdout w') = discarded (stdout w) ++ revealed /\
    hand (p1 g') = hand (p1 g) /\ hand (p2 g') = hand (p2 g) /\
    leader g' = leader g /\ follower g' = follower g.
Proof.
  unfold reveal. destruct (deck g) as [|c0 d] eqn:Hd.
  - simpl. intros H. inv_io. subst. exists []. simpl.
    rewrite app_nil_r. auto 10.
  - destruct (draw_nonempty (c0 :: d) ltac:(discriminate)) as (c & rest & E & ->).
    intros H. inv_io. subst. exists [c]. simpl.
    rewrite discarded_snoc. auto 10.
Qed.

Lemma deal_additional_cards (g g' : Game) (w w' : io) :
  deal_additional g w = Ok g' w' ->
  hand (p1 g') ++ hand (p2 g') ++ deck g' ≡ₚ hand (p1 g) ++ hand (p2 g) ++ deck g /\
  discarded (stdout w') = discarded (stdout w).
Proof.
  unfold deal_additional. destruct (deal_due g); intros H.
  - inv_io.
    repeat match goal with
    | H : (let '(_, _) := ?p in _) _ = Ok _ _ |- _ => destruct p
    end.
    inv_io. subst. simpl in *.
    repeat match goal with
    | H : Deck.deal _ _ = Some _ |- _ => apply deal_Some in H as [H _]
    end.
    split; [|rewrite discarded_snoc; apply app_nil_r].
    match goal with
    | H1 : deck g = _, H2 : _ = _ ++ reverse _ |- _ => rewrite H1, H2
    end.
    rewrite !reverse_Permutation. solve_Permutation.
  - inv_io. subst. auto.
Qed.

Lemma show_score_discarded (g : Game) (u : unit) (w w' : io) :
  show_score g w = Ok u w' -> discarded (stdout w') = discarded (stdout w).
Proof.
  unfold show_score. intros H. inv_io. subst. simpl.
  rewrite discarded_snoc. apply app_nil_r.
Qed.

(** One round: the cards held before it are the cards held after it and
    the two or three cards that went to the terminal. *)
Lemma round_body_cards (g g' : Game) (w w' : io) :
  follower g = other (leader g) ->
  round_body g w = Ok g' w' ->
  exists lead_card follow_card,
    let revealed := option_list (fst (Deck.draw (deck g))) in
    hand (p1 g) ++ hand (p2 g) ++ deck g ≡ₚ
      (lead_card :: follow_card :: revealed)
        ++ hand (p1 g') ++ hand (p2 g') ++ deck g' /\
    discarded (stdout w') =
      discarded (stdout w) ++ lead_card :: follow_card :: revealed /\
    follower g' = other (leader g').
Proof.
  intros Hf H.
  apply round_body_Ok in H as (gc & wc & w3 & u & Hpre & Hdeal & Hshow).
  inv_io.
  match goal with H : play_trick _ _ = _ |- _ =>
    apply play_trick_cards in H as (lc & fc & Hh & Hdk & Hout & Hf1); [|exact Hf]
  end.
  apply reveal_cards in Hpre
    as (revealed & Hrev & Hdk2 & Hout2 & Hh1 & Hh2 & Hl2 & Hf2).
  pose proof (deal_additional_roles _ _ _ _ Hdeal) as [Hl3 Hf3].
  apply deal_additional_cards in Hdeal as [Hperm Hout3].
  apply show_score_discarded in Hshow.
  exists lc, fc. cbv zeta. rewrite <- Hdk, <- Hrev.
  split; [|split].
  - rewrite Hperm, Hh1, Hh2, Hdk2.
    rewrite (app_assoc (hand (p1 g))), Hh. solve_Permutation.
  - rewrite Hshow, Hout3, Hout2, Hout, <- app_assoc. reflexivity.
  - congruence.
Qed.

Lemma boundary_cards (g0 g : Game) (w0 w : io) (n : nat) :
  follower g0 = other (leader g0) -> boundary g0 w0 n g w ->
  (exists played,
     discarded (stdout w) = discarded (stdout w0) ++ played /\
     hand (p1 g0) ++ hand (p2 g0) ++ deck g0 ≡ₚ
       hand (p1 g) ++ hand (p2 g) ++ deck g ++ played /\
     (2 * n <= length played <= 3 * n)%nat) /\
  follower g = other (leader g).
Proof.
  intros H0. induction 1 as [|n g1 w1 g2 w2 _ [(played & IHo & IHp & IHn) IHf] _ Hb].
  - split; [|exact H0]. exists []. rewrite !app_nil_r. simpl. auto with lia.
  - destruct (round_body_cards _ _ _ _ IHf Hb) as (lc & fc & Hp & Ho & Hf).
    cbv zeta in Hp, Ho. split; [|exact Hf].
    set (revealed := option_list (fst (Deck.draw (deck g1)))) in *.
    exists (played ++ lc :: fc :: revealed). split; [|split].
    + rewrite Ho, IHo, <- app_assoc. reflexivity.
    + etrans; [exact IHp|].
      trans ((hand (p1 g1) ++ hand (p2 g1) ++ deck g1) ++ played);
        [solve_Permutation|].
      rewrite Hp. solve_Permutation.
    + rewrite length_app. simpl.
      assert (length revealed <= 1)%nat
        by (subst revealed; destruct (fst (Deck.draw (deck g1))); simpl; lia).
      lia.
Qed.

Lemma boundary_app (g0 g1 g2 : Game) (w0 w1 w2 : io) (n m : nat) :
  boundary g0 w0 n g1 w1 -> boundary g1 w1 m g2 w2 ->
  boundary g0 w0 (n + m) g2 w2.
Proof.
  intros H1 H2. induction H2 as [|m g w g' w' _ IH Ht Hb].
  - rewrite Nat.add_0_r. exact H1.
  - rewrite Nat.add_succ_r. eapply boundary_round; eassumption.
Qed.

Lemma setup_discarded (cards : list Card) (coin : bool) (w0 w1 : io) (g0 : Game) :
  setup cards coin w0 = Ok g0 w1 -> discarded (stdout w1) = discarded (stdout w0).
Proof.
  unfold setup. intros H. inv_io.
  repeat match goal with
  | H : (let '(_, _) := ?p in _) _ = Ok _ _ |- _ => destruct p
  end.
  inv_io.
  repeat match goal with
  | H : input _ _ = Ok _ _ |- _ =>
      unfold input in H;
      match type of H with
      | match stdin ?w with _ => _ end = _ =>
          destruct (stdin w) as [|? ?] eqn:?; [discriminate H|];
          injection H as ? ?
      end
  end.
  subst. simpl in *. subst. simpl.
  rewrite !discarded_snoc. simpl. rewrite !app_nil_r. reflexivity.
Qed.

(** X14.  Every card is in one place.  The cards dealt at the start and the
    rest of the deck are the cards of the deck.  After [n] rounds the two
    hands, the deck and the cards that the terminal shows as led, played or
    revealed in these rounds (two or three for each round) are again
    exactly the cards of the deck: a card led, played or revealed has left
    the hands and the deck, and nothing else has.  The cards shown stay
    shown in all later rounds; so on a deck without duplicates no card is
    in two places, and a card led, played or revealed is in no hand and not
    in the deck at any later round boundary. *)
Theorem cards_conserved (cards : list Card) (coin : bool) (w0 w1 w : io)
    (g0 g : Game) (n : nat) :
  setup cards coin w0 = Ok g0 w1 -> boundary g0 w1 n g w ->
  hand (p1 g0) ++ hand (p2 g0) ++ deck g0 ≡ₚ cards /\
  exists played,
    discarded (stdout w) = discarded (stdout w0) ++ played /\
    (2 * n <= length played <= 3 * n)%nat /\
    hand (p1 g) ++ hand (p2 g) ++ deck g ++ played ≡ₚ cards /\
    (forall m g' w',
       boundary g w m g' w' ->
       exists later,
         discarded (stdout w') = discarded (stdout w0) ++ played ++ later /\
         hand (p1 g') ++ hand (p2 g') ++ deck g' ++ played ++ later ≡ₚ cards) /\
    (NoDup cards ->
     NoDup (hand (p1 g) ++ hand (p2 g) ++ deck g ++ played) /\
     forall m g' w' c,
       boundary g w m g' w' -> c ∈ played ->
       c ∉ hand (p1 g') ++ hand (p2 g') ++ deck g').
Proof.
  intros Hs Hb. pose proof (setup_discarded _ _ _ _ _ Hs) as Hout0.
  apply setup_Ok in Hs as (_ & _ & _ & _ & _ & _ & _ & _ & Hf & _ & _ & (d & Hd1 & Hd2) & _).
  apply deal_Some in Hd1 as [Hd1 _]. apply deal_Some in Hd2 as [Hd2 _].
  assert (H0 : hand (p1 g0) ++ hand (p2 g0) ++ deck g0 ≡ₚ cards).
  { rewrite Hd1, Hd2, !reverse_Permutation. solve_Permutation. }
  split; [exact H0|].
  destruct (boundary_cards _ _ _ _ _ Hf Hb) as [(played & Ho & Hp & Hn) Hfg].
  rewrite Hout0 in Ho. rewrite H0 in Hp.
  assert (Hlater : forall m g' w',
            boundary g w m g' w' ->
            exists later,
              discarded (stdout w') = discarded (stdout w0) ++ played ++ later /\
              hand (p1 g') ++ hand (p2 g') ++ deck g' ++ played ++ later ≡ₚ cards).
  { intros m g' w' Hb'.
    destruct (boundary_cards _ _ _ _ _ Hfg Hb') as [(later & Ho' & Hp' & _) _].
    exists later. split.
    - rewrite Ho', Ho, <- app_assoc. reflexivity.
    - rewrite Hp. rewrite !app_assoc in Hp'. rewrite !app_assoc, Hp'.
      solve_Permutation. }
  exists played. split; [exact Ho|]. split; [exact Hn|].
  split; [symmetry; exact Hp|]. split; [exact Hlater|].
  intros Hnd. split.
  - rewrite <- Hp. exact Hnd.
  - intros m g' w' c Hb' Hc Hin.
    destruct (Hlater m g' w' Hb') as (later & _ & Hp').
    rewrite <- Hp' in Hnd.
    assert (Hsplit : NoDup ((hand (p1 g') ++ hand (p2 g') ++ deck g') ++ played ++ later)).
    { rewrite <- !app_assoc. exact Hnd. }
    apply NoDup_app in Hsplit as (_ & Hdisj & _).
    apply (Hdisj c Hin). apply elem_of_app. left. exact Hc.
Qed.

Lemma cards_conserved_witness :
  exists g0 w1 gf wf played,
    setup Deck.unshuffled true (mkIO same_name_lines []) = Ok g0 w1 /\
    game_loop 16 g0 w1 = Some (Ok gf wf) /\
    discarded (stdout wf) = played /\ length played = 27%nat /\
    NoDup (hand (p1 gf) ++ hand (p2 gf) ++ deck gf ++ played).
Proof.
  run_game E0 E1 Deck.unshuffled true (mkIO same_name_lines []).
  pose proof (game_loop_boundary _ _ _ _ _ E1) as (n & _ & Hb & _).
  destruct (cards_conserved _ _ _ _ _ _ _ _ E0 Hb)
    as (_ & played & Ho & _ & _ & _ & Hnd).
  cbn [stdout] in Ho. change (discarded [] ++ played) with played in Ho.
  eexists _, _, _, _, played. split; [exact E0|]. split; [exact E1|].
  split; [exact Ho|]. split; [rewrite <- Ho; vm_compute; reflexivity|].
  apply Hnd. apply unshuffled_NoDup.
Defined.

(** ** The result of a game *)

(** X15.  A game on ASCII input between two different names that is played
    to its end has one of five results, and the final report says which: a
    player who took no trick in 16 rounds shot the moon; 8-8 after 16
    rounds is a tie; otherwise the winner named has at least 9 tricks and
    more than the other player, who has at least one.  In particular a game
    that ends before round 16 has a winner, and every game has at least 10
    rounds. *)
Theorem game_result (cards : list Card) (coin : bool) (w0 w1 wf : io)
    (g0 gf : Game) :
  ascii_input w0 ->
  setup cards coin w0 = Ok g0 w1 ->
  name (p1 g0) <> name (p2 g0) ->
  game_loop 16 g0 w1 = Some (Ok gf wf) ->
  exists s1 s2 v,
    score_of gf P1 = Some s1 /\ score_of gf P2 = Some s2 /\
    s1 + s2 = round_num gf /\ 10 <= round_num gf <= 16 /\
    game_end gf wf =
      Ok tt (mkIO (stdin wf)
               (stdout wf ++ [OutGameOver;
                              OutFinalScore (name (p1 g0)) s1 (name (p2 g0)) s2;
                              v])) /\
    ((s1 = 0 /\ s2 = 16 /\ v = OutShotMoon (name (p1 g0)) 16) \/
     (s2 = 0 /\ s1 = 16 /\ v = OutShotMoon (name (p2 g0)) 16) \/
     (s1 = 8 /\ s2 = 8 /\ v = OutTie) \/
     (9 <= s1 /\ 1 <= s2 < s1 /\ v = OutWins (name (p1 g0))) \/
     (9 <= s2 /\ 1 <= s1 < s2 /\ v = OutWins (name (p2 g0)))).
Proof.
  intros _ Hs Hne Hl.
  apply game_loop_boundary in Hl as (n & _ & Hb & Hf).
  destruct (game_inv _ _ _ _ _ _ _ _ Hs Hb) as (Hr & Hn & Hn1 & Hn2 & Hs1 & Hs2 & _).
  destruct (boundary_scores _ _ _ _ _ _ _ _ Hs Hne Hb)
    as (s1 & s2 & H1 & H2 & Hp1 & Hp2 & Hsum & _).
  apply loop_test_false in Hf; [|assumption|assumption].
  assert (Hend : n = 16%nat \/ early_termination s1 s2 = true).
  { destruct Hf as [Hge|(s1' & s2' & H1' & H2' & He)]; [left; lia|].
    right. congruence. }
  rewrite early_termination_true in Hend.
  exists s1, s2.
  unfold game_end, bind, print. rewrite H1, H2. cbn [orRaise ret stdin stdout].
  rewrite Hn1, Hn2.
  repeat (case_bool_decide; cbn [andb stdin stdout]);
    eexists; (split; [reflexivity|]); (split; [reflexivity|]);
    (split; [lia|]); (split; [lia|]);
    (split; [rewrite <- !app_assoc; reflexivity|]); subst;
    first [ left; repeat split; (reflexivity || lia)
          | right; left; repeat split; (reflexivity || lia)
          | right; right; left; repeat split; (reflexivity || lia)
          | right; right; right; left; repeat split; (reflexivity || lia)
          | right; right; right; right; repeat split; (reflexivity || lia) ].
Qed.

Lemma game_result_witness :
  exists g0 w1 gf wf,
    setup Deck.unshuffled false (mkIO nine_seven_lines []) = Ok g0 w1 /\
    game_loop 16 g0 w1 = Some (Ok gf wf) /\
    game_end gf wf =
      Ok tt (mkIO (stdin wf)
               (stdout wf ++ [OutGameOver; OutFinalScore "A" 9 "B" 7; OutWins "A"])).
Proof.
  run_game E0 E1 Deck.unshuffled false (mkIO nine_seven_lines []).
  assert (Hascii : ascii_input (mkIO nine_seven_lines []))
    by (apply (bool_decide_unpack _); vm_compute; exact I).
  destruct (game_result _ _ _ _ _ _ _ Hascii E0 ltac:(discriminate) E1)
    as (s1 & s2 & v & H1 & H2 & _ & _ & He & _).
  eexists _, _, _, _. split; [exact E0|]. split; [exact E1|].
  vm_compute. reflexivity.
Defined.
